(** * snark_linter: a shallow embedding of the rule engine and its properties

    The development follows [snark_linter.py]: Python strings and the
    string methods the linter calls, the two naming patterns with a regular
    expression matcher, the docstring accessor, the [SnarkLinter] visitor
    with its loop depth counter, the three text passes and
    [run_snark_linter], which merges the four lists of issues. *)

From Stdlib Require Import String Ascii DecimalString.
From Stdlib Require Import List ZArith NArith Bool Lia.
From Stdlib Require Import Sorting.Sorted Sorting.Permutation.
Import ListNotations.

Local Open Scope Z_scope.
Set Warnings "-register-all".

(** ** Python strings

    A [str] is a sequence of Unicode code points; [len] counts code points. *)

Module PyStr.

Definition char := N.
Definition str := list char.

Definition chr (a : ascii) : char := N_of_ascii a.

(** A literal of the source, all of whose characters are ASCII. *)
Definition lit (s : string) : str := map chr (list_ascii_of_string s).

Definition len (s : str) : Z := Z.of_nat (length s).

(** Truth value of a string: empty strings are falsy. *)
Definition truthy (s : str) : bool :=
  match s with [] => false | _ :: _ => true end.

Definition range (lo hi : ascii) (c : char) : bool :=
  (chr lo <=? c)%N && (c <=? chr hi)%N.

Definition is_char (a : ascii) (c : char) : bool := (c =? chr a)%N.

(** [str.isspace] for one character: the code points CPython's
    [_PyUnicode_IsWhitespace] accepts. *)
Definition isspace (c : char) : bool :=
  ((9 <=? c) && (c <=? 13) || (28 <=? c) && (c <=? 32)
   || (c =? 133) || (c =? 160) || (c =? 5760)
   || (8192 <=? c) && (c <=? 8202)
   || (c =? 8232) || (c =? 8233) || (c =? 8239) || (c =? 8287)
   || (c =? 12288))%N.

Fixpoint lstrip_by (p : char -> bool) (s : str) : str :=
  match s with
  | c :: s' => if p c then lstrip_by p s' else s
  | [] => []
  end.

Definition rstrip_by (p : char -> bool) (s : str) : str :=
  rev (lstrip_by p (rev s)).

(** [s.lstrip()], [s.rstrip()], [s.strip()] and [s.rstrip('\n')]. *)
Definition lstrip : str -> str := lstrip_by isspace.
Definition rstrip : str -> str := rstrip_by isspace.
Definition strip (s : str) : str := rstrip (lstrip s).
Definition newline : char := 10%N.
Definition rstrip_newline : str -> str := rstrip_by (N.eqb newline).

(** [s.startswith(p)]. *)
Fixpoint startswith (s p : str) : bool :=
  match p, s with
  | [], _ => true
  | a :: p', b :: s' => (a =? b)%N && startswith s' p'
  | _ :: _, [] => false
  end.

(** [sub in s]. *)
Fixpoint contains (s sub : str) : bool :=
  startswith s sub ||
  match s with
  | [] => false
  | _ :: s' => contains s' sub
  end.

(** What follows the first occurrence of [sep] in [s]:
    [s.split(sep, maxsplit=1)[1]] when the result has two parts. *)
Fixpoint after_first (s sep : str) : option str :=
  if startswith s sep then Some (skipn (length sep) s)
  else match s with
       | [] => None
       | _ :: s' => after_first s' sep
       end.

(** [s.split('\n')]: always at least one piece. *)
Fixpoint split_lines (s : str) : list str :=
  match s with
  | [] => [[]]
  | c :: s' =>
      if (c =? newline)%N then [] :: split_lines s'
      else match split_lines s' with
           | l :: ls => (c :: l) :: ls
           | [] => [[c]]
           end
  end.

(** ['\n'.join(lines)]. *)
Fixpoint join_lines (ls : list str) : str :=
  match ls with
  | [] => []
  | [l] => l
  | l :: ls' => l ++ newline :: join_lines ls'
  end.

(** [s.expandtabs()] with the default tab size 8: the column restarts
    after a line feed or a carriage return. *)
Fixpoint expandtabs_from (col : nat) (s : str) : str :=
  match s with
  | [] => []
  | c :: s' =>
      if (c =? 9)%N then
        let incr := (8 - col mod 8)%nat in
        repeat (chr " ") incr ++ expandtabs_from (col + incr) s'
      else if (c =? 10)%N || (c =? 13)%N then c :: expandtabs_from 0 s'
      else c :: expandtabs_from (S col) s'
  end.

Definition expandtabs : str -> str := expandtabs_from 0.

(** The lines a text-mode file object yields when it is iterated: each
    ends with its line feed, except possibly the last. *)
Fixpoint file_lines_from (cur : str) (s : str) : list str :=
  match s with
  | [] => match cur with [] => [] | _ => [rev cur] end
  | c :: s' =>
      if (c =? newline)%N then rev (c :: cur) :: file_lines_from [] s'
      else file_lines_from (c :: cur) s'
  end.

Definition file_lines : str -> list str := file_lines_from [].

(** [str(n)] for an integer. *)
Definition of_Z (n : Z) : str := lit (NilZero.string_of_int (Z.to_int n)).

End PyStr.
Import PyStr.

(** ** Regular expressions

    The two patterns of the source use character classes, sequence and
    repetition only, so [pattern.match(s)] succeeds exactly when [s] is in
    the language of the pattern.  Matching is by Brzozowski derivatives. *)

Module Regex.

Inductive regex : Type :=
| Void
| Eps
| Class (p : char -> bool)
| Seq (r1 r2 : regex)
| Alt (r1 r2 : regex)
| Star (r : regex).

(** [r+] *)
Definition Plus (r : regex) : regex := Seq r (Star r).

Fixpoint nullable (r : regex) : bool :=
  match r with
  | Void => false
  | Eps => true
  | Class _ => false
  | Seq r1 r2 => nullable r1 && nullable r2
  | Alt r1 r2 => nullable r1 || nullable r2
  | Star _ => true
  end.

Fixpoint deriv (c : char) (r : regex) : regex :=
  match r with
  | Void => Void
  | Eps => Void
  | Class p => if p c then Eps else Void
  | Seq r1 r2 =>
      if nullable r1 then Alt (Seq (deriv c r1) r2) (deriv c r2)
      else Seq (deriv c r1) r2
  | Alt r1 r2 => Alt (deriv c r1) (deriv c r2)
  | Star r1 => Seq (deriv c r1) (Star r1)
  end.

Fixpoint fullmatch (r : regex) (s : str) : bool :=
  match s with
  | [] => nullable r
  | c :: s' => fullmatch (deriv c r) s'
  end.

(** [re.compile('^' r '$').match(s)] is not [None]: without [re.MULTILINE]
    the anchor [$] matches at the end of the string and also just before a
    line feed that ends the string. *)
Definition re_match (r : regex) (s : str) : bool :=
  fullmatch r s ||
  match rev s with
  | c :: s' => (c =? newline)%N && fullmatch r (rev s')
  | [] => false
  end.

(** The language of a pattern, for the proofs. *)
Inductive lang : regex -> str -> Prop :=
| lang_eps : lang Eps []
| lang_class p c : p c = true -> lang (Class p) [c]
| lang_seq r1 r2 s1 s2 : lang r1 s1 -> lang r2 s2 -> lang (Seq r1 r2) (s1 ++ s2)
| lang_alt_l r1 r2 s : lang r1 s -> lang (Alt r1 r2) s
| lang_alt_r r1 r2 s : lang r2 s -> lang (Alt r1 r2) s
| lang_star_nil r : lang (Star r) []
| lang_star_app r s1 s2 : lang r s1 -> lang (Star r) s2 -> lang (Star r) (s1 ++ s2).

End Regex.
Import Regex.

(** [CAPWORDS_REGEX]: between the anchors, the class [A-Z], then
    [a-zA-Z0-9] one or more times, then any number of repetitions of the
    group made of the class [A-Z0-9] followed by [a-zA-Z0-9] any number of
    times. *)
Definition upper_AZ (c : char) : bool := range "A" "Z" c.
Definition alnum (c : char) : bool :=
  range "a" "z" c || range "A" "Z" c || range "0" "9" c.
Definition upper_or_digit (c : char) : bool := range "A" "Z" c || range "0" "9" c.

Definition CAPWORDS_REGEX : regex :=
  Seq (Class upper_AZ)
      (Seq (Plus (Class alnum))
           (Star (Seq (Class upper_or_digit) (Star (Class alnum))))).

(** What [CAPWORDS_REGEX] accepts, read off character by character: an
    upper-case ASCII letter followed by at least one more character, all of
    them ASCII letters or digits. *)
Definition capwords_shape (name : str) : bool :=
  match name with
  | c :: rest => upper_AZ c && truthy rest && forallb alnum rest
  | [] => false
  end.

(** [SNAKE_CASE_REGEX]: between the anchors, the class [a-z_], then
    [a-z0-9_] any number of times. *)
Definition lower_or_underscore (c : char) : bool := range "a" "z" c || is_char "_" c.
Definition lower_digit_underscore (c : char) : bool :=
  range "a" "z" c || range "0" "9" c || is_char "_" c.

Definition SNAKE_CASE_REGEX : regex :=
  Seq (Class lower_or_underscore) (Star (Class lower_digit_underscore)).

(** ** Issues

    An issue is the pair [(line, message)] the source appends.  A message
    is kept as its template and the values put into it; [render] gives the
    text that the f-strings of the source build. *)

Inductive entity : Type :=
| EClass (name : str)
| EFunction (name : str).

Inductive message : Type :=
| ClassNotCapWords (name : str) (lineno : Z)
| ClassNoDocstring (name : str) (lineno : Z)
| FunctionFound (name : str) (lineno : Z)
| FunctionNotSnakeCase (name : str) (lineno : Z)
| FunctionNoDocstring (name : str) (lineno : Z)
| DocstringTooShort (entity_name : entity) (lineno : Z) (length : Z)
| DocstringNoCapital (entity_name : entity) (lineno : Z)
| DocstringNoPunctuation (entity_name : entity) (lineno : Z)
| SingleLetterVariable (var_name : str) (lineno : Z)
| NestedFor (lineno : Z)
| NestedWhile (lineno : Z)
| CommentTooLong (line_num : Z) (length : Z)
| ExtraneousComment (line_num : Z) (comment_text : str)
| CommentLineTooLong (line_no : Z) (length : Z)
| CodeLineTooLong (line_no : Z) (length : Z)
| MultipleImports (line_no : Z)
| MultipleFromImports (line_no : Z)
| SyntaxErrorAt (line_number : Z).

Definition issue : Type := Z * message.

Definition render_entity (e : entity) : str :=
  match e with
  | EClass name => lit "Class '" ++ name ++ lit "'"
  | EFunction name => lit "Function '" ++ name ++ lit "'"
  end.

Definition render (m : message) : str :=
  match m with
  | ClassNotCapWords name lineno =>
      lit "Class '" ++ name ++ lit "' at line " ++ of_Z lineno
      ++ lit " is not in CapWords style. Do you even PEP 8, bro?"
  | ClassNoDocstring name lineno =>
      lit "Class '" ++ name ++ lit "' at line " ++ of_Z lineno
      ++ lit " has no docstring. Why bother writing code if no one knows what it does?"
  | FunctionFound name lineno =>
      lit "Found a function named '" ++ name ++ lit "' at line " ++ of_Z lineno
      ++ lit ". Is this your attempt at structured programming? How quaint."
  | FunctionNotSnakeCase name lineno =>
      lit "Function '" ++ name ++ lit "' at line " ++ of_Z lineno
      ++ lit " is not snake_case. We only speak underscores around here."
  | FunctionNoDocstring name lineno =>
      lit "Function '" ++ name ++ lit "' at line " ++ of_Z lineno
      ++ lit " has no docstring. Don't keep secrets from your future self!"
  | DocstringTooShort e lineno n =>
      render_entity e ++ lit " at line " ++ of_Z lineno
      ++ lit " has a docstring with only " ++ of_Z n
      ++ lit " characters. That's barely a grunt, not a docstring."
  | DocstringNoCapital e lineno =>
      render_entity e ++ lit " at line " ++ of_Z lineno
      ++ lit " has a docstring that doesn't start with a capital letter. Where's your sense of grammar?"
  | DocstringNoPunctuation e lineno =>
      render_entity e ++ lit " at line " ++ of_Z lineno
      ++ lit " has a docstring that doesn't end with punctuation. Finish your sentence, please."
  | SingleLetterVariable v lineno =>
      lit "Single-letter variable '" ++ v ++ lit "' at line " ++ of_Z lineno
      ++ lit ". Oh sure, I'd never guess what it means, but I'm sure it's clear to YOU."
  | NestedFor lineno =>
      lit "Nested loop at line " ++ of_Z lineno
      ++ lit ". You do realize we invented break and return statements, right?"
  | NestedWhile lineno =>
      lit "Nested loop at line " ++ of_Z lineno
      ++ lit ". Yikes, a while loop inside another loop? Are you allergic to simplicity?"
  | CommentTooLong line_num n =>
      lit "This comment at line " ++ of_Z line_num ++ lit " is " ++ of_Z n
      ++ lit " characters long. Way to kill the readability. 72 was too short for you?"
  | ExtraneousComment line_num text =>
      lit "Extraneous comment at line " ++ of_Z line_num
      ++ lit ". Real developers keep it all in their heads: " ++ text
  | CommentLineTooLong line_no n =>
      lit "Line " ++ of_Z line_no ++ lit " has " ++ of_Z n
      ++ lit " characters in a comment. 72 is the limit, but apparently your brilliance needed more space?"
  | CodeLineTooLong line_no n =>
      lit "Line " ++ of_Z line_no ++ lit " has " ++ of_Z n
      ++ lit " characters. Trying to write the next War and Peace in one line?"
  | MultipleImports line_no =>
      lit "Multiple imports on one line at " ++ of_Z line_no
      ++ lit ". You think we can read two modules in one breath?"
  | MultipleFromImports line_no =>
      lit "Multiple imports on one line at " ++ of_Z line_no
      ++ lit ". One import statement per line, please. Our tiny eyes can't parse multiple."
  | SyntaxErrorAt line_number =>
      lit "Wow, syntax error at line " ++ of_Z line_number
      ++ lit ". Did you even try to run this code yourself? I can't parse this nonsense."
  end.

(** The tuple [(line, text)] of the source. *)
Definition render_issue (i : issue) : Z * str := (fst i, render (snd i)).

(** ** Syntax trees

    The node classes the visitor tells apart, with the fields it reads; the
    child nodes are kept in the order of the class's [_fields], which is
    the order [generic_visit] walks them in. *)

Inductive def_class : Type := ClassDef | FunctionDef | AsyncFunctionDef.
Inductive loop_class : Type := For | While | AsyncFor.

Inductive constant : Type :=
| CStr (value : str)
| CNotStr.

Inductive node : Type :=
(** [ClassDef(name, bases, keywords, body, decorator_list)] and
    [FunctionDef(name, args, body, decorator_list, returns)]: [pre] holds
    the child nodes before the body and [post] those after it. *)
| Def (c : def_class) (lineno : Z) (name : str) (pre body post : list node)
(** [For(target, iter, body, orelse)] and [While(test, body, orelse)]. *)
| Loop (c : loop_class) (lineno : Z) (head body orelse : list node)
(** [Assign(targets, value)]. *)
| Assign (lineno : Z) (targets : list node) (value : node)
(** [Expr(value)]: an expression statement. *)
| Expr (value : node)
| Constant (value : constant)
(** [Name(id, ctx)]. *)
| Name (id : str) (ctx : node)
(** Any other class, with its child nodes. *)
| Other (cls : string) (fields : list node).

Definition children (n : node) : list node :=
  match n with
  | Def _ _ _ pre body post => pre ++ body ++ post
  | Loop _ _ head body orelse => head ++ body ++ orelse
  | Assign _ targets value => targets ++ [value]
  | Expr value => [value]
  | Constant _ => []
  | Name _ ctx => [ctx]
  | Other _ fields => fields
  end.

(** Bottom-up recursion over a tree: [f] is given the node and the results
    for its children. *)
Fixpoint fold_node {A : Type} (f : node -> list A -> A) (n : node) : A :=
  f n match n with
      | Def _ _ _ pre body post =>
          map (fold_node f) pre ++ map (fold_node f) body ++ map (fold_node f) post
      | Loop _ _ head body orelse =>
          map (fold_node f) head ++ map (fold_node f) body ++ map (fold_node f) orelse
      | Assign _ targets value => map (fold_node f) targets ++ [fold_node f value]
      | Expr value => [fold_node f value]
      | Constant _ => []
      | Name _ ctx => [fold_node f ctx]
      | Other _ fields => map (fold_node f) fields
      end.

(** Number of nodes on the longest path from [n] down to a leaf. *)
Definition height : node -> nat := fold_node (fun _ hs => S (list_max hs)).

(** All nodes of a tree, parents before children (pre-order). *)
Definition subnodes : node -> list node := fold_node (fun n ls => n :: concat ls).

(** ** The docstring accessor

    [ast.get_docstring(node)] of the standard library: the value of the
    string constant that is the first statement of the body, cleaned by
    [inspect.cleandoc]. *)

Module Docstring.

(** The smallest indentation of the lines with content after the first;
    [None] stands for the initial [sys.maxsize], which no line reaches. *)
Definition margin_of (lines : list str) : option nat :=
  fold_left
    (fun margin line =>
       let content := length (lstrip line) in
       if Nat.eqb content 0 then margin
       else
         let indent := (length line - content)%nat in
         Some (match margin with None => indent | Some m => Nat.min m indent end))
    lines None.

Fixpoint drop_blank (lines : list str) : list str :=
  match lines with
  | [] :: rest => drop_blank rest
  | _ => lines
  end.

Definition cleandoc (doc : str) : str :=
  let lines := split_lines (expandtabs doc) in
  let margin := margin_of (tl lines) in
  let lines := match lines with l0 :: rest => lstrip l0 :: rest | [] => [] end in
  let lines :=
    match margin, lines with
    | Some m, l0 :: rest => l0 :: map (skipn m) rest
    | _, _ => lines
    end in
  let lines := rev (drop_blank (rev lines)) in
  let lines := drop_blank lines in
  join_lines lines.

Definition get_docstring (body : list node) : option str :=
  match body with
  | Expr (Constant (CStr text)) :: _ => Some (cleandoc text)
  | _ => None
  end.

End Docstring.
Import Docstring.

(** ** Exceptions and the visitor's state *)

Inductive exn : Type :=
| FileNotFoundError
| UnicodeDecodeError
| SyntaxError (lineno : option Z)
| TokenError
| RecursionError
| IndexError
| ValueError
| UnicodeEncodeError
| OSError.

(** The fields of a [SnarkLinter] object that the rules use ([file_path]
    is stored and never read). *)
Record linter : Type := Linter { issues : list issue; loop_depth : Z }.

(** [SnarkLinter(file_path)] *)
Definition new_linter : linter := Linter [] 0.

(** A method either returns or raises; the object keeps the changes made
    up to that point in both cases. *)
Inductive completion : Type :=
| Normal (self : linter)
| Raise (e : exn) (self : linter).

Definition method : Type := linter -> completion.

Definition pass : method := Normal.
Definition raise (e : exn) : method := Raise e.

Definition then_ (a b : method) : method :=
  fun self => match a self with
              | Normal self' => b self'
              | Raise e self' => Raise e self'
              end.

Declare Scope method_scope.
Delimit Scope method_scope with method.
Bind Scope method_scope with method.
Notation "a ;; b" := (then_ a b) (at level 61, right associativity) : method_scope.
Local Open Scope method_scope.

(** [self.issues.append(i)] *)
Definition append (i : issue) : method :=
  fun self => Normal (Linter (issues self ++ [i]) (loop_depth self)).

(** [if b: m] *)
Definition when (b : bool) (m : method) : method := if b then m else pass.

(** [for x in xs: body(x)] *)
Fixpoint for_each {A : Type} (xs : list A) (body : A -> method) : method :=
  match xs with
  | [] => pass
  | x :: xs' => body x ;; for_each xs' body
  end.

(** ** The text passes

    A file is seen through what the standard library returns for it: the
    text of the text-mode handle, the result of [ast.parse] on that text,
    and the tokens [tokenize.tokenize] yields from the binary handle,
    followed by the exception that ends the stream when it ends with
    one. *)

Inductive outcome (A : Type) : Type :=
| Returned (a : A)
| Raised (e : exn).
Arguments Returned {A} a.
Arguments Raised {A} e.

Definition bind {A B : Type} (o : outcome A) (k : A -> outcome B) : outcome B :=
  match o with
  | Returned a => k a
  | Raised e => Raised e
  end.

Notation "x <- o ;;; k" := (bind o (fun x => k))
  (at level 62, o at next level, right associativity).

Inductive token_type : Type := COMMENT | OTHER_TOKEN.

Record token : Type := Token {
  type : token_type;
  start_line : Z;         (* [token.start[0]] *)
  token_string : str      (* [token.string] *)
}.

Record source_file : Type := SourceFile {
  text : outcome str;
  ast_parse : outcome node;
  tokens : list token * option exn
}.

(** [enumerate(xs, start)] *)
Fixpoint enumerate {A : Type} (start : Z) (xs : list A) : list (Z * A) :=
  match xs with
  | [] => []
  | x :: xs' => (start, x) :: enumerate (start + 1) xs'
  end.

Definition comment_issue (tok : token) : list issue :=
  match type tok with
  | COMMENT =>
      let line_num := start_line tok in
      let comment_text := strip (token_string tok) in
      let message :=
        if 72 <? len comment_text
        then CommentTooLong line_num (len comment_text)
        else ExtraneousComment line_num comment_text in
      [(line_num, message)]
  | OTHER_TOKEN => []
  end.

(** The path is the argument [None] when [os.path.exists] is false. *)
Definition find_comment_issues (file : option source_file) : outcome (list issue) :=
  match file with
  | None => Returned []
  | Some f =>
      let found := flat_map comment_issue (fst (tokens f)) in
      match snd (tokens f) with
      | Some e => Raised e
      | None => Returned found
      end
  end.

Definition line_length_issue (numbered : Z * str) : list issue :=
  let (line_no, line) := numbered in
  let raw_line := rstrip_newline line in
  if negb (truthy (strip raw_line)) then []
  else if startswith (lstrip raw_line) (lit "#") then
    if 72 <? len raw_line
    then [(line_no, CommentLineTooLong line_no (len raw_line))] else []
  else
    if 79 <? len raw_line
    then [(line_no, CodeLineTooLong line_no (len raw_line))] else [].

Definition find_line_length_issues (file : option source_file) : outcome (list issue) :=
  match file with
  | None => Returned []
  | Some f =>
      content <- text f ;;;
      Returned (flat_map line_length_issue (enumerate 1 (file_lines content)))
  end.

Definition import_issue (numbered : Z * str) : list issue :=
  let (line_no, line) := numbered in
  let stripped := strip line in
  if startswith stripped (lit "import ") then
    let after_import := skipn (length (lit "import ")) stripped in
    if contains after_import (lit ",") then [(line_no, MultipleImports line_no)] else []
  else if startswith stripped (lit "from ") && contains stripped (lit " import ") then
    match after_first stripped (lit " import ") with
    | Some to_import =>
        if contains to_import (lit ",") then [(line_no, MultipleFromImports line_no)] else []
    | None => []
    end
  else [].

Definition find_import_issues (file : option source_file) : outcome (list issue) :=
  match file with
  | None => Returned []
  | Some f =>
      content <- text f ;;;
      Returned (flat_map import_issue (enumerate 1 (file_lines content)))
  end.

(** ** Merging the passes *)

(** [all_issues.sort(key=lambda x: x[0])]: [list.sort] is stable, so the
    result is the one list that is ordered by line and keeps issues of one
    line in their input order.  Insertion from the right, with an issue put
    ahead of the issues of the same line that followed it, computes it. *)
Fixpoint insert_by_line (x : issue) (l : list issue) : list issue :=
  match l with
  | [] => [x]
  | y :: l' => if fst x <=? fst y then x :: l else y :: insert_by_line x l'
  end.

Definition sort_by_line (l : list issue) : list issue :=
  fold_right insert_by_line [] l.

(** [e.lineno if e.lineno else 1]: [None] and [0] are falsy. *)
Definition line_number_of (lineno : option Z) : Z :=
  match lineno with
  | Some n => if n =? 0 then 1 else n
  | None => 1
  end.

(** ** The rule visitor *)

Section Engine.

(** [str.isalpha] and [str.isupper] on a character outside ASCII are read
    off the interpreter's Unicode database, which is left open here. *)
Variables unicode_alpha unicode_upper : char -> bool.

Definition isalpha_char (c : char) : bool :=
  if (c <? 128)%N then range "a" "z" c || range "A" "Z" c else unicode_alpha c.

Definition isupper_char (c : char) : bool :=
  if (c <? 128)%N then range "A" "Z" c else unicode_upper c.

(** [s.isalpha()]: every character is alphabetic and there is at least one. *)
Definition isalpha (s : str) : bool := truthy s && forallb isalpha_char s.

(** [last_char not in ('.', '!', '?')] is the negation of this test. *)
Definition terminal_punctuation (c : char) : bool :=
  is_char "." c || is_char "!" c || is_char "?" c.

Definition _check_docstring_rules (docstring : str) (lineno : Z)
    (entity_name : entity) : method :=
  (* Check length *)
  when (len docstring <? 10)
    (append (lineno, DocstringTooShort entity_name lineno (len docstring))) ;;
  (* Capital letter at start *)
  match docstring with
  | [] => raise IndexError
  | first_char :: _ =>
      when (negb (isupper_char first_char))
        (append (lineno, DocstringNoCapital entity_name lineno))
  end ;;
  (* End with punctuation *)
  match rev docstring with
  | [] => raise IndexError
  | last_char :: _ =>
      when (negb (terminal_punctuation last_char))
        (append (lineno, DocstringNoPunctuation entity_name lineno))
  end.

(** [not docstring], for the value [ast.get_docstring] returned. *)
Definition no_docstring (docstring : option str) : bool :=
  match docstring with
  | None => true
  | Some s => negb (truthy s)
  end.

Definition docstring_text (docstring : option str) : str :=
  match docstring with Some s => s | None => [] end.

Definition visit_ClassDef (generic_visit : method) (lineno : Z) (name : str)
    (body : list node) : method :=
  (* Class naming *)
  when (negb (re_match CAPWORDS_REGEX name))
    (append (lineno, ClassNotCapWords name lineno)) ;;
  (* Docstring *)
  (let docstring := get_docstring body in
   if no_docstring docstring then append (lineno, ClassNoDocstring name lineno)
   else _check_docstring_rules (docstring_text docstring) lineno (EClass name)) ;;
  generic_visit.

Definition visit_FunctionDef (generic_visit : method) (lineno : Z) (name : str)
    (body : list node) : method :=
  (* Snark about functions existing at all *)
  append (lineno, FunctionFound name lineno) ;;
  (* Function name snake_case *)
  when (negb (re_match SNAKE_CASE_REGEX name))
    (append (lineno, FunctionNotSnakeCase name lineno)) ;;
  (* Docstring *)
  (let docstring := get_docstring body in
   if no_docstring docstring then append (lineno, FunctionNoDocstring name lineno)
   else _check_docstring_rules (docstring_text docstring) lineno (EFunction name)) ;;
  generic_visit.

Definition visit_Assign (generic_visit : method) (lineno : Z)
    (targets : list node) : method :=
  (* Single-letter variable check *)
  for_each targets
    (fun target =>
       match target with
       | Name var_name _ =>
           when ((len var_name =? 1) && isalpha var_name)
             (append (lineno, SingleLetterVariable var_name lineno))
       | _ => pass
       end) ;;
  generic_visit.

(** [self.loop_depth += 1] and [self.loop_depth -= 1] *)
Definition enter_loop : method :=
  fun self => Normal (Linter (issues self) (loop_depth self + 1)).
Definition leave_loop : method :=
  fun self => Normal (Linter (issues self) (loop_depth self - 1)).

(** [if self.loop_depth > 1: self.issues.append(i)] *)
Definition when_nested (i : issue) : method :=
  fun self => if 1 <? loop_depth self then append i self else Normal self.

Definition visit_For (generic_visit : method) (lineno : Z) : method :=
  (* Nested loops *)
  enter_loop ;;
  when_nested (lineno, NestedFor lineno) ;;
  generic_visit ;;
  leave_loop.

Definition visit_While (generic_visit : method) (lineno : Z) : method :=
  (* Nested loops *)
  enter_loop ;;
  when_nested (lineno, NestedWhile lineno) ;;
  generic_visit ;;
  leave_loop.

(** [NodeVisitor.visit]: dispatch on the class of the node, with
    [generic_visit] for the classes that have no [visit_] method.
    [generic_visit] calls [visit] on every child, in field order.

    The interpreter bounds the depth of the call stack; [depth] is the
    number of nested [visit] calls still allowed, and a call beyond it
    raises [RecursionError].  The interpreter counts the frames of the
    rules and of the library too, so it can also raise inside a rule, at a
    height that the tree alone does not fix; the bound stands for the one
    exception a visit can meet, not for the place where the stack ends. *)
Fixpoint visit (depth : nat) (n : node) : method :=
  match depth with
  | O => raise RecursionError
  | S depth' =>
      let generic_visit := for_each (children n) (visit depth') in
      match n with
      | Def ClassDef lineno name _ body _ => visit_ClassDef generic_visit lineno name body
      | Def FunctionDef lineno name _ body _ => visit_FunctionDef generic_visit lineno name body
      | Assign lineno targets _ => visit_Assign generic_visit lineno targets
      | Loop For lineno _ _ _ => visit_For generic_visit lineno
      | Loop While lineno _ _ _ => visit_While generic_visit lineno
      | _ => generic_visit
      end
  end.

Definition generic_visit (depth : nat) (n : node) : method :=
  for_each (children n) (visit depth).

(** ** The visitor as a function of the tree

    What a visit appends, written without the state: the issues of the
    node itself, for the loop depth [d] at which it is reached, then those
    of its children. *)

Definition check_docstring_issues (docstring : str) (lineno : Z)
    (entity_name : entity) : list issue :=
  (if len docstring <? 10
   then [(lineno, DocstringTooShort entity_name lineno (len docstring))] else [])
  ++ match docstring with
     | first_char :: _ =>
         if isupper_char first_char then []
         else [(lineno, DocstringNoCapital entity_name lineno)]
     | [] => []
     end
  ++ match rev docstring with
     | last_char :: _ =>
         if terminal_punctuation last_char then []
         else [(lineno, DocstringNoPunctuation entity_name lineno)]
     | [] => []
     end.

Definition docstring_issues (body : list node) (lineno : Z)
    (entity_name : entity) (missing : message) : list issue :=
  let docstring := get_docstring body in
  if no_docstring docstring then [(lineno, missing)]
  else check_docstring_issues (docstring_text docstring) lineno entity_name.

Definition single_letter_issues (lineno : Z) (targets : list node) : list issue :=
  flat_map
    (fun target =>
       match target with
       | Name var_name _ =>
           if (len var_name =? 1) && isalpha var_name
           then [(lineno, SingleLetterVariable var_name lineno)] else []
       | _ => []
       end)
    targets.

Definition own_issues (d : Z) (n : node) : list issue :=
  match n with
  | Def ClassDef lineno name _ body _ =>
      (if re_match CAPWORDS_REGEX name then []
       else [(lineno, ClassNotCapWords name lineno)])
      ++ docstring_issues body lineno (EClass name) (ClassNoDocstring name lineno)
  | Def FunctionDef lineno name _ body _ =>
      (lineno, FunctionFound name lineno)
      :: (if re_match SNAKE_CASE_REGEX name then []
          else [(lineno, FunctionNotSnakeCase name lineno)])
      ++ docstring_issues body lineno (EFunction name) (FunctionNoDocstring name lineno)
  | Assign lineno targets _ => single_letter_issues lineno targets
  | Loop For lineno _ _ _ => if 1 <? d + 1 then [(lineno, NestedFor lineno)] else []
  | Loop While lineno _ _ _ => if 1 <? d + 1 then [(lineno, NestedWhile lineno)] else []
  | _ => []
  end.

(** The loop depth at which the children of [n] are visited. *)
Definition inner_depth (d : Z) (n : node) : Z :=
  match n with
  | Loop For _ _ _ _ | Loop While _ _ _ _ => d + 1
  | _ => d
  end.

Definition tree_issues : node -> Z -> list issue :=
  fold_node (fun n below d =>
               own_issues d n ++ flat_map (fun f => f (inner_depth d n)) below).

(** ** Reading the issues of a run *)

(** The issues of each rule, told apart by their message. *)
Definition is_nesting (i : issue) : bool :=
  match snd i with NestedFor _ | NestedWhile _ => true | _ => false end.

Definition is_function_found (i : issue) : bool :=
  match snd i with FunctionFound _ _ => true | _ => false end.

Definition is_class_naming (i : issue) : bool :=
  match snd i with ClassNotCapWords _ _ => true | _ => false end.

Definition is_single_letter (i : issue) : bool :=
  match snd i with SingleLetterVariable _ _ => true | _ => false end.

Definition is_missing_docstring (i : issue) : bool :=
  match snd i with ClassNoDocstring _ _ | FunctionNoDocstring _ _ => true | _ => false end.

Definition is_docstring_shape (i : issue) : bool :=
  match snd i with
  | DocstringTooShort _ _ _ | DocstringNoCapital _ _ | DocstringNoPunctuation _ _ => true
  | _ => false
  end.

(** The loops whose visit method counts them. *)
Definition counted (c : loop_class) : bool :=
  match c with For | While => true | AsyncFor => false end.

Definition is_counted_loop (n : node) : bool :=
  match n with Loop c _ _ _ _ => counted c | _ => false end.

(** The nesting issue of a loop of class [c] at line [lineno]. *)
Definition nesting_issue (c : loop_class) (lineno : Z) : list issue :=
  match c with
  | For => [(lineno, NestedFor lineno)]
  | While => [(lineno, NestedWhile lineno)]
  | AsyncFor => []
  end.

(** The nesting issues of the loops of a tree that lie inside a counted
    loop, in pre-order; [inside] tells whether the tree itself does. *)
Definition loops_inside : node -> bool -> list issue :=
  fold_node (fun n below (inside : bool) =>
               (match n with
                | Loop c lineno _ _ _ => if inside then nesting_issue c lineno else []
                | _ => []
                end)
               ++ flat_map (fun f => f (inside || is_counted_loop n)) below).

(** A list of nodes with no counted loop anywhere in it. *)
Definition loop_free (l : list node) : Prop :=
  flat_map (fun x => loops_inside x true) l = [].

(** A list of nodes whose counted loops are all in its one element [x]. *)
Definition only_loop (x : node) (l : list node) : Prop :=
  exists before after, l = before ++ x :: after /\ loop_free before /\ loop_free after.

(** What each node contributes to the issues of one rule. *)
Definition function_found_of (n : node) : list issue :=
  match n with
  | Def FunctionDef lineno name _ _ _ => [(lineno, FunctionFound name lineno)]
  | _ => []
  end.

Definition class_naming_of (n : node) : list issue :=
  match n with
  | Def ClassDef lineno name _ _ _ =>
      if re_match CAPWORDS_REGEX name then []
      else [(lineno, ClassNotCapWords name lineno)]
  | _ => []
  end.

Definition single_letter_of (n : node) : list issue :=
  match n with
  | Assign lineno targets _ => single_letter_issues lineno targets
  | _ => []
  end.

Definition is_name (n : node) : bool :=
  match n with Name _ _ => true | _ => false end.

(** A literal made of whitespace on its first line only: characters of
    whitespace other than the line feed, then line feeds and nothing else. *)
Fixpoint blank_first_line (text : str) : bool :=
  match text with
  | [] => true
  | c :: text' =>
      if (c =? newline)%N then forallb (N.eqb newline) text'
      else isspace c && blank_first_line text'
  end.

(** Order of a report, and the issues of one line. *)
Definition line_le (a b : issue) : Prop := fst a <= fst b.

Definition on_line (n : Z) (i : issue) : bool := fst i =? n.

(** A visit has settled the counter when it returns with the depth it
    started from, or raises with a depth that is not below it. *)
Definition settled (self : linter) (r : completion) : Prop :=
  match r with
  | Normal self' => loop_depth self' = loop_depth self
  | Raise _ self' => loop_depth self <= loop_depth self'
  end.

(** A method keeps the depth when every call of it settles the counter. *)
Definition keeps_depth (m : method) : Prop := forall self, settled self (m self).

(** [m] returns, having appended [l] and nothing else. *)
Definition emits (m : method) (l : list issue) : Prop :=
  forall self, m self = Normal (Linter (issues self ++ l) (loop_depth self)).

(** ** The engine *)

Definition run_snark_linter (recursion_limit : nat) (file : option source_file)
  : outcome (list issue) :=
  match file with
  | None => Raised FileNotFoundError
  | Some f =>
      (* Syntax parse check *)
      match (source_code <- text f ;;; ast_parse f) with
      | Raised (SyntaxError lineno) =>
          let line_number := line_number_of lineno in
          Returned [(line_number, SyntaxErrorAt line_number)]
      | Raised e => Raised e
      | Returned tree =>
          (* AST-based checks *)
          match visit recursion_limit tree new_linter with
          | Raise e _ => Raised e
          | Normal linter' =>
              let ast_issues := issues linter' in
              (* Additional checks *)
              comment_issues <- find_comment_issues file ;;;
              length_issues <- find_line_length_issues file ;;;
              import_issues <- find_import_issues file ;;;
              let all_issues :=
                ast_issues ++ comment_issues ++ length_issues ++ import_issues in
              Returned (sort_by_line all_issues)
          end
      end
  end.

(** ** Properties of the matcher *)

Lemma lang_seq_inv (r1 r2 : regex) (s : str) :
  lang (Seq r1 r2) s -> exists s1 s2, s = s1 ++ s2 /\ lang r1 s1 /\ lang r2 s2.
Proof. intros H. inversion H; subst. eauto. Qed.

Lemma lang_alt_inv (r1 r2 : regex) (s : str) :
  lang (Alt r1 r2) s -> lang r1 s \/ lang r2 s.
Proof. intros H. inversion H; subst; auto. Qed.

Lemma lang_class_inv (p : char -> bool) (s : str) :
  lang (Class p) s -> exists c, s = [c] /\ p c = true.
Proof. intros H. inversion H; subst. eauto. Qed.

Lemma lang_eps_inv (s : str) : lang Eps s -> s = [].
Proof. intros H. now inversion H. Qed.

Lemma lang_void_inv (s : str) : ~ lang Void s.
Proof. intros H. inversion H. Qed.

Lemma lang_seq_cons (r1 r2 : regex) (c : char) (s1 s2 : str) :
  lang r1 (c :: s1) -> lang r2 s2 -> lang (Seq r1 r2) (c :: s1 ++ s2).
Proof. intros H1 H2. change (c :: s1 ++ s2) with ((c :: s1) ++ s2). now constructor. Qed.

Lemma lang_seq_nil_l (r1 r2 : regex) (s : str) :
  lang r1 [] -> lang r2 s -> lang (Seq r1 r2) s.
Proof. intros H1 H2. change s with ([] ++ s). now constructor. Qed.

Lemma nullable_lang (r : regex) : nullable r = true <-> lang r [].
Proof.
  induction r as [| |p|r1 IH1 r2 IH2|r1 IH1 r2 IH2|r IH]; simpl.
  - split; [discriminate | intros H; now apply lang_void_inv in H].
  - split; [constructor | reflexivity].
  - split; [discriminate |]. intros H. apply lang_class_inv in H as (c & E & _). discriminate.
  - rewrite andb_true_iff, IH1, IH2. split.
    + intros [H1 H2]. now apply lang_seq_nil_l.
    + intros H. apply lang_seq_inv in H as (s1 & s2 & E & H1 & H2).
      symmetry in E. apply app_eq_nil in E as [-> ->]. now split.
  - rewrite orb_true_iff, IH1, IH2. split.
    + intros [H|H]; [now apply lang_alt_l | now apply lang_alt_r].
    + apply lang_alt_inv.
  - split; [constructor | reflexivity].
Qed.

(** A non-empty word of a repetition starts with a non-empty word of the
    repeated pattern. *)
Lemma lang_star_cons (r : regex) (c : char) (s : str) :
  lang (Star r) (c :: s) ->
  exists s1 s2, s = s1 ++ s2 /\ lang r (c :: s1) /\ lang (Star r) s2.
Proof.
  intros H. remember (Star r) as r' eqn:Er. remember (c :: s) as w eqn:Ew.
  induction H as [| | | | | |r0 s1 s2 H1 _ H2 IH2]; try discriminate.
  injection Er as ->. destruct s1 as [|c1 s1]; simpl in Ew.
  - now apply IH2.
  - injection Ew as -> <-. now exists s1, s2.
Qed.

Lemma deriv_lang (c : char) (r : regex) (s : str) :
  lang (deriv c r) s <-> lang r (c :: s).
Proof.
  revert s. induction r as [| |p|r1 IH1 r2 IH2|r1 IH1 r2 IH2|r IH]; intros s; simpl.
  - split; intros H; now apply lang_void_inv in H.
  - split; intros H; [now apply lang_void_inv in H |].
    apply lang_eps_inv in H. discriminate.
  - destruct (p c) eqn:Ep; split; intros H.
    + apply lang_eps_inv in H as ->. now constructor.
    + apply lang_class_inv in H as (c' & E & _). injection E as _ ->. constructor.
    + now apply lang_void_inv in H.
    + apply lang_class_inv in H as (c' & E & Hp). injection E as <- _. congruence.
  - assert (Hl : forall s, lang (Seq (deriv c r1) r2) s -> lang (Seq r1 r2) (c :: s)).
    { intros s0 H. apply lang_seq_inv in H as (s1 & s2 & -> & H1 & H2).
      apply lang_seq_cons; [now apply IH1 | assumption]. }
    assert (Hr : forall s, lang (Seq r1 r2) (c :: s) ->
                 lang (Seq (deriv c r1) r2) s \/ (lang r1 [] /\ lang (deriv c r2) s)).
    { intros s0 H. apply lang_seq_inv in H as (s1 & s2 & E & H1 & H2).
      destruct s1 as [|c1 s1]; simpl in E.
      - subst s2. right. split; [assumption | now apply IH2].
      - injection E as <- ->. left. constructor; [now apply IH1 | assumption]. }
    destruct (nullable r1) eqn:En.
    + split.
      * intros H. apply lang_alt_inv in H as [H|H]; [now apply Hl |].
        apply lang_seq_nil_l; [now apply nullable_lang | now apply IH2].
      * intros H. destruct (Hr _ H) as [H'|[_ H']]; [now apply lang_alt_l | now apply lang_alt_r].
    + split; [apply Hl |].
      intros H. destruct (Hr _ H) as [H'|[H' _]]; [assumption |].
      apply nullable_lang in H'. congruence.
  - split; intros H; apply lang_alt_inv in H as [H|H].
    + apply lang_alt_l. now apply IH1.
    + apply lang_alt_r. now apply IH2.
    + apply lang_alt_l. now apply IH1.
    + apply lang_alt_r. now apply IH2.
  - split.
    + intros H. apply lang_seq_inv in H as (s1 & s2 & -> & H1 & H2).
      change (c :: s1 ++ s2) with ((c :: s1) ++ s2). constructor; [now apply IH | assumption].
    + intros H. apply lang_star_cons in H as (s1 & s2 & -> & H1 & H2).
      constructor; [now apply IH | assumption].
Qed.

Lemma fullmatch_lang (r : regex) (s : str) : fullmatch r s = true <-> lang r s.
Proof.
  revert r. induction s as [|c s IH]; intros r; simpl.
  - apply nullable_lang.
  - rewrite IH. apply deriv_lang.
Qed.

Lemma lang_star_class (p : char -> bool) (s : str) :
  lang (Star (Class p)) s <-> forallb p s = true.
Proof.
  split.
  - intros H. remember (Star (Class p)) as r eqn:Er.
    induction H as [| | | | | |r0 s1 s2 H1 _ H2 IH2]; try discriminate; [reflexivity |].
    injection Er as ->. apply lang_class_inv in H1 as (c & -> & Hc). simpl.
    rewrite Hc. now apply IH2.
  - induction s as [|c s IH]; simpl; intros H; [constructor |].
    apply andb_true_iff in H as [Hc Hs].
    change (c :: s) with ([c] ++ s). constructor; [now constructor | now apply IH].
Qed.

(** *** The class-name pattern *)

Lemma upper_or_digit_alnum (c : char) : upper_or_digit c = true -> alnum c = true.
Proof.
  unfold upper_or_digit, alnum. intros H.
  apply orb_true_iff in H as [H|H]; rewrite H; now rewrite ?orb_true_r.
Qed.

Lemma upper_AZ_alnum (c : char) : upper_AZ c = true -> alnum c = true.
Proof. unfold upper_AZ, alnum. intros H. rewrite H. now rewrite orb_true_r. Qed.

Lemma lang_capwords_tail (s : str) :
  lang (Star (Seq (Class upper_or_digit) (Star (Class alnum)))) s ->
  forallb alnum s = true.
Proof.
  intros H. remember (Star (Seq (Class upper_or_digit) (Star (Class alnum)))) as r eqn:Er.
  induction H as [| | | | | |r0 s1 s2 H1 _ H2 IH2]; try discriminate; [reflexivity |].
  injection Er as ->. rewrite forallb_app, IH2 by reflexivity. rewrite andb_true_r.
  apply lang_seq_inv in H1 as (t1 & t2 & -> & Ht1 & Ht2).
  apply lang_class_inv in Ht1 as (c & -> & Hc). simpl.
  rewrite (upper_or_digit_alnum _ Hc). now apply lang_star_class.
Qed.

Lemma lang_capwords (s : str) : lang CAPWORDS_REGEX s <-> capwords_shape s = true.
Proof.
  unfold CAPWORDS_REGEX, Plus, capwords_shape. split.
  - intros H. apply lang_seq_inv in H as (s1 & s2 & -> & H1 & H2).
    apply lang_class_inv in H1 as (c & -> & Hc). simpl. rewrite Hc. simpl.
    apply lang_seq_inv in H2 as (s3 & s4 & -> & H3 & H4).
    apply lang_seq_inv in H3 as (s5 & s6 & -> & H5 & H6).
    apply lang_class_inv in H5 as (c2 & -> & Hc2). simpl. rewrite Hc2. simpl.
    rewrite forallb_app. apply andb_true_iff. split.
    + now apply lang_star_class.
    + now apply lang_capwords_tail.
  - destruct s as [|c [|c2 rest]]; try discriminate.
    + now rewrite andb_false_r.
    + simpl. intros H. rewrite !andb_true_iff in H.
      destruct H as [[Hc _] [Hc2 Hrest]].
      replace (c :: c2 :: rest) with ([c] ++ (([c2] ++ rest) ++ []))
        by (simpl; now rewrite app_nil_r).
      constructor; [now constructor |].
      constructor; [| constructor].
      constructor; [now constructor | now apply lang_star_class].
Qed.

Lemma fullmatch_capwords (s : str) : fullmatch CAPWORDS_REGEX s = capwords_shape s.
Proof.
  apply eq_true_iff_eq. rewrite fullmatch_lang. apply lang_capwords.
Qed.

(** ** Properties of trees *)

Lemma fold_node_children {A : Type} (f : node -> list A -> A) (n : node) :
  fold_node f n = f n (map (fold_node f) (children n)).
Proof. destruct n; simpl; now rewrite ?map_app. Qed.

Lemma height_children (n c : node) : In c (children n) -> (height c < height n)%nat.
Proof.
  intros Hin. unfold height at 2. rewrite fold_node_children. fold height.
  assert (H : (list_max (map height (children n)) <= list_max (map height (children n)))%nat)
    by reflexivity.
  rewrite list_max_le in H. rewrite Forall_forall in H.
  specialize (H (height c) (in_map _ _ _ Hin)). lia.
Qed.

Lemma height_pos (n : node) : (0 < height n)%nat.
Proof. unfold height. rewrite fold_node_children. lia. Qed.

Lemma subnodes_children (n : node) :
  subnodes n = n :: flat_map subnodes (children n).
Proof.
  unfold subnodes at 1. rewrite fold_node_children. fold subnodes.
  now rewrite flat_map_concat_map.
Qed.

Lemma tree_issues_children (n : node) (d : Z) :
  tree_issues n d
  = own_issues d n ++ flat_map (fun c => tree_issues c (inner_depth d n)) (children n).
Proof.
  unfold tree_issues at 1. rewrite fold_node_children. fold tree_issues.
  f_equal. induction (children n) as [|c cs IH]; simpl; [reflexivity | now rewrite IH].
Qed.

(** Induction on a tree: a property of a node follows from the property of
    its children. *)
Lemma node_children_ind (P : node -> Prop) :
  (forall n, (forall c, In c (children n) -> P c) -> P n) -> forall n, P n.
Proof.
  intros step n. remember (height n) as h eqn:Eh.
  assert (Hle : (height n <= h)%nat) by lia. clear Eh. revert n Hle.
  induction h as [|h IH]; intros n Hle.
  - pose proof (height_pos n). lia.
  - apply step. intros c Hin. apply IH.
    pose proof (height_children n c Hin). lia.
Qed.

(** ** Properties of the visitor's methods *)

Lemma emits_pass : emits pass [].
Proof. intros [i d]. unfold pass. simpl. now rewrite app_nil_r. Qed.

Lemma emits_append (i : issue) : emits (append i) [i].
Proof. intros self. reflexivity. Qed.

Lemma emits_then (a b : method) (la lb : list issue) :
  emits a la -> emits b lb -> emits (a ;; b) (la ++ lb).
Proof.
  intros Ha Hb self. unfold then_. rewrite Ha, Hb. simpl. now rewrite app_assoc.
Qed.

Lemma emits_when (b : bool) (m : method) (l : list issue) :
  emits m l -> emits (when b m) (if b then l else []).
Proof. intros Hm. destruct b; simpl; [assumption | apply emits_pass]. Qed.

Lemma emits_unless (b : bool) (m : method) (l : list issue) :
  emits m l -> emits (when (negb b) m) (if b then [] else l).
Proof. intros Hm. destruct b; simpl; [apply emits_pass | assumption]. Qed.

Lemma emits_for_each {A : Type} (xs : list A) (body : A -> method)
    (f : A -> list issue) :
  (forall x, emits (body x) (f x)) -> emits (for_each xs body) (flat_map f xs).
Proof.
  intros Hbody. induction xs as [|x xs IH]; simpl.
  - apply emits_pass.
  - now apply emits_then.
Qed.

(** Running [a], which returns, and then [b] is running [b] on the state
    [a] leaves. *)
Lemma then_emits (a b : method) (l : list issue) (self : linter) :
  emits a l -> (a ;; b) self = b (Linter (issues self ++ l) (loop_depth self)).
Proof. intros Ha. unfold then_. now rewrite Ha. Qed.

Lemma rev_cons_not_nil {A : Type} (x : A) (l : list A) : rev (x :: l) <> [].
Proof. simpl. now destruct (rev l). Qed.

Lemma emits_check_docstring_rules (docstring : str) (lineno : Z) (e : entity) :
  truthy docstring = true ->
  emits (_check_docstring_rules docstring lineno e)
        (check_docstring_issues docstring lineno e).
Proof.
  intros Hd. destruct docstring as [|c rest]; [discriminate |].
  unfold _check_docstring_rules, check_docstring_issues.
  pose proof (rev_cons_not_nil c rest) as Hrev.
  destruct (rev (c :: rest)) as [|last rest'] eqn:Er; [congruence |].
  apply emits_then; [apply emits_when, emits_append |].
  apply emits_then; apply emits_unless, emits_append.
Qed.

Lemma emits_docstring_check (body : list node) (lineno : Z) (e : entity)
    (missing : message) :
  emits (let docstring := get_docstring body in
         if no_docstring docstring then append (lineno, missing)
         else _check_docstring_rules (docstring_text docstring) lineno e)
        (docstring_issues body lineno e missing).
Proof.
  unfold docstring_issues. simpl.
  destruct (no_docstring (get_docstring body)) eqn:En; [apply emits_append |].
  apply emits_check_docstring_rules.
  destruct (get_docstring body) as [d|]; simpl in *; [| discriminate].
  now destruct (truthy d).
Qed.

(** Each rule appends its node's own issues and then descends. *)
Lemma visit_ClassDef_own (gv : method) (lineno : Z) (name : str)
    (pre body post : list node) (self : linter) :
  visit_ClassDef gv lineno name body self
  = gv (Linter (issues self
                 ++ own_issues (loop_depth self) (Def ClassDef lineno name pre body post))
               (loop_depth self)).
Proof.
  unfold visit_ClassDef.
  rewrite (then_emits _ _ _ _ (emits_unless _ _ _ (emits_append _))).
  rewrite (then_emits _ _ _ _ (emits_docstring_check _ _ _ _)).
  simpl. now rewrite <- app_assoc.
Qed.

Lemma visit_FunctionDef_own (gv : method) (lineno : Z) (name : str)
    (pre body post : list node) (self : linter) :
  visit_FunctionDef gv lineno name body self
  = gv (Linter (issues self
                 ++ own_issues (loop_depth self) (Def FunctionDef lineno name pre body post))
               (loop_depth self)).
Proof.
  unfold visit_FunctionDef.
  rewrite (then_emits _ _ _ _ (emits_append _)).
  rewrite (then_emits _ _ _ _ (emits_unless _ _ _ (emits_append _))).
  rewrite (then_emits _ _ _ _ (emits_docstring_check _ _ _ _)).
  simpl. now rewrite <- !app_assoc.
Qed.

Lemma emits_single_letter (lineno : Z) (targets : list node) :
  emits (for_each targets
           (fun target =>
              match target with
              | Name var_name _ =>
                  when ((len var_name =? 1) && isalpha var_name)
                    (append (lineno, SingleLetterVariable var_name lineno))
              | _ => pass
              end))
        (single_letter_issues lineno targets).
Proof.
  apply emits_for_each. intros target.
  destruct target; try apply emits_pass. apply emits_when, emits_append.
Qed.

Lemma visit_Assign_own (gv : method) (lineno : Z) (targets : list node)
    (value : node) (self : linter) :
  visit_Assign gv lineno targets self
  = gv (Linter (issues self ++ own_issues (loop_depth self) (Assign lineno targets value))
               (loop_depth self)).
Proof.
  unfold visit_Assign. now rewrite (then_emits _ _ _ _ (emits_single_letter _ _)).
Qed.

(** A loop is entered, reported when the depth is then above 1, descended
    into at that depth, and left when the descent returns. *)
Lemma visit_For_own (gv : method) (lineno : Z) (head body orelse : list node)
    (self : linter) :
  visit_For gv lineno self
  = match gv (Linter (issues self
                       ++ own_issues (loop_depth self) (Loop For lineno head body orelse))
                     (loop_depth self + 1)) with
    | Normal self' => Normal (Linter (issues self') (loop_depth self' - 1))
    | Raise e self' => Raise e self'
    end.
Proof.
  unfold visit_For, then_, enter_loop, when_nested, leave_loop, append. simpl.
  destruct (1 <? loop_depth self + 1); simpl; [reflexivity |].
  now rewrite app_nil_r.
Qed.

Lemma visit_While_own (gv : method) (lineno : Z) (head body orelse : list node)
    (self : linter) :
  visit_While gv lineno self
  = match gv (Linter (issues self
                       ++ own_issues (loop_depth self) (Loop While lineno head body orelse))
                     (loop_depth self + 1)) with
    | Normal self' => Normal (Linter (issues self') (loop_depth self' - 1))
    | Raise e self' => Raise e self'
    end.
Proof.
  unfold visit_While, then_, enter_loop, when_nested, leave_loop, append. simpl.
  destruct (1 <? loop_depth self + 1); simpl; [reflexivity |].
  now rewrite app_nil_r.
Qed.

(** *** A visit that has stack enough returns the issues of the tree *)

(** Two states that differ in the bracketing of the appended lists and in
    [d + 1 - 1] for [d]. *)
Ltac same_state :=
  cbn [issues loop_depth inner_depth];
  rewrite <- ?app_assoc;
  rewrite ?Z.add_simpl_r;
  reflexivity.

Lemma for_each_returns (cs : list node) (body : node -> method)
    (f : node -> Z -> list issue) :
  (forall c, In c cs -> forall self,
     body c self = Normal (Linter (issues self ++ f c (loop_depth self)) (loop_depth self))) ->
  forall self,
    for_each cs body self
    = Normal (Linter (issues self ++ flat_map (fun c => f c (loop_depth self)) cs)
                     (loop_depth self)).
Proof.
  induction cs as [|c cs IH]; intros Hbody self; simpl.
  - unfold pass. destruct self. simpl. now rewrite app_nil_r.
  - unfold then_. rewrite Hbody by now left. rewrite IH by (intros; apply Hbody; now right).
    simpl. now rewrite app_assoc.
Qed.

Lemma visit_returns (depth : nat) (n : node) (self : linter) :
  (height n <= depth)%nat ->
  visit depth n self
  = Normal (Linter (issues self ++ tree_issues n (loop_depth self)) (loop_depth self)).
Proof.
  revert n self. induction depth as [|depth IH]; intros n self Hh.
  - pose proof (height_pos n). lia.
  - assert (Hgv : forall self0,
               for_each (children n) (visit depth) self0
               = Normal (Linter (issues self0
                                  ++ flat_map (fun c => tree_issues c (loop_depth self0))
                                       (children n))
                                (loop_depth self0))).
    { apply for_each_returns. intros c Hin self0. apply IH.
      pose proof (height_children n c Hin). lia. }
    rewrite tree_issues_children.
    destruct n as [c lineno name pre body post|c lineno head body orelse
                  |lineno targets value|value|value|id ctx|cls fields].
    + destruct c; cbn [visit].
      * rewrite (visit_ClassDef_own _ _ _ pre body post), Hgv. same_state.
      * rewrite (visit_FunctionDef_own _ _ _ pre body post), Hgv. same_state.
      * rewrite Hgv. reflexivity.
    + destruct c; cbn [visit].
      * rewrite (visit_For_own _ _ head body orelse), Hgv. same_state.
      * rewrite (visit_While_own _ _ head body orelse), Hgv. same_state.
      * rewrite Hgv. reflexivity.
    + cbn [visit]. rewrite (visit_Assign_own _ _ _ value), Hgv. same_state.
    + cbn [visit]. now rewrite Hgv.
    + cbn [visit]. now rewrite Hgv.
    + cbn [visit]. now rewrite Hgv.
    + cbn [visit]. now rewrite Hgv.
Qed.

(** *** The loop depth across a visit *)

Lemma keeps_depth_emits (m : method) (l : list issue) : emits m l -> keeps_depth m.
Proof. intros H self. now rewrite H. Qed.

Lemma keeps_depth_raise (e : exn) : keeps_depth (raise e).
Proof. intros self. simpl. lia. Qed.

Lemma keeps_depth_then (a b : method) :
  keeps_depth a -> keeps_depth b -> keeps_depth (a ;; b).
Proof.
  intros Ha Hb self. unfold then_. specialize (Ha self).
  destruct (a self) as [s1|e s1]; simpl in Ha; [| assumption].
  specialize (Hb s1). destruct (b s1); simpl in *; lia.
Qed.

Lemma keeps_depth_when (b : bool) (m : method) : keeps_depth m -> keeps_depth (when b m).
Proof. intros H. destruct b; simpl; [assumption | exact (keeps_depth_emits _ _ emits_pass)]. Qed.

Lemma keeps_depth_for_each {A : Type} (xs : list A) (body : A -> method) :
  (forall x, keeps_depth (body x)) -> keeps_depth (for_each xs body).
Proof.
  intros H. induction xs as [|x xs IH]; simpl.
  - exact (keeps_depth_emits _ _ emits_pass).
  - now apply keeps_depth_then.
Qed.

Lemma keeps_depth_append (i : issue) : keeps_depth (append i).
Proof. exact (keeps_depth_emits _ _ (emits_append i)). Qed.

Lemma keeps_depth_check_docstring_rules (d : str) (lineno : Z) (e : entity) :
  keeps_depth (_check_docstring_rules d lineno e).
Proof.
  unfold _check_docstring_rules.
  apply keeps_depth_then; [apply keeps_depth_when, keeps_depth_append |].
  apply keeps_depth_then.
  - destruct d; [apply keeps_depth_raise | apply keeps_depth_when, keeps_depth_append].
  - destruct (rev d); [apply keeps_depth_raise | apply keeps_depth_when, keeps_depth_append].
Qed.

Lemma keeps_depth_docstring (body : list node) (lineno : Z) (e : entity) (m : message) :
  keeps_depth (let docstring := get_docstring body in
               if no_docstring docstring then append (lineno, m)
               else _check_docstring_rules (docstring_text docstring) lineno e).
Proof.
  simpl. destruct (no_docstring (get_docstring body)).
  - apply keeps_depth_append.
  - apply keeps_depth_check_docstring_rules.
Qed.

(** Around a descent that settles the counter, entering and leaving a loop
    settle it too; when the descent raises, the counter stays above the
    depth the loop was reached at. *)
Lemma loop_settled (gv : method) (i : issue) (self : linter) :
  keeps_depth gv ->
  match (enter_loop ;; when_nested i ;; gv ;; leave_loop) self with
  | Normal self' => loop_depth self' = loop_depth self
  | Raise _ self' => loop_depth self < loop_depth self'
  end.
Proof.
  intros Hgv. unfold then_, enter_loop, when_nested, leave_loop, append. simpl.
  destruct (1 <? loop_depth self + 1);
    match goal with |- context [gv ?s] => specialize (Hgv s); destruct (gv s) end;
    simpl in *; lia.
Qed.

Lemma visit_keeps_depth (depth : nat) (n : node) : keeps_depth (visit depth n).
Proof.
  revert n. induction depth as [|depth IH]; intros n; [apply keeps_depth_raise |].
  assert (Hgv : keeps_depth (for_each (children n) (visit depth)))
    by now apply keeps_depth_for_each.
  destruct n as [c lineno name pre body post|c lineno head body orelse
                |lineno targets value|value|value|id ctx|cls fields];
    try exact Hgv.
  - destruct c; cbn [visit]; try exact Hgv.
    + apply keeps_depth_then; [apply keeps_depth_when, keeps_depth_append |].
      apply keeps_depth_then; [apply keeps_depth_docstring | exact Hgv].
    + apply keeps_depth_then; [apply keeps_depth_append |].
      apply keeps_depth_then; [apply keeps_depth_when, keeps_depth_append |].
      apply keeps_depth_then; [apply keeps_depth_docstring | exact Hgv].
  - destruct c; cbn [visit]; try exact Hgv; intros self.
    + pose proof (loop_settled _ (lineno, NestedFor lineno) self Hgv) as H.
      unfold visit_For, settled.
      destruct ((enter_loop ;; when_nested (lineno, NestedFor lineno) ;;
                 for_each (children (Loop For lineno head body orelse)) (visit depth) ;;
                 leave_loop) self); lia.
    + pose proof (loop_settled _ (lineno, NestedWhile lineno) self Hgv) as H.
      unfold visit_While, settled.
      destruct ((enter_loop ;; when_nested (lineno, NestedWhile lineno) ;;
                 for_each (children (Loop While lineno head body orelse)) (visit depth) ;;
                 leave_loop) self); lia.
  - cbn [visit]. unfold visit_Assign. apply keeps_depth_then; [| exact Hgv].
    exact (keeps_depth_emits _ _ (emits_single_letter _ _)).
Qed.

(** ** Properties of lists of issues *)

Lemma filter_flat_map {A B : Type} (p : B -> bool) (f : A -> list B) (l : list A) :
  filter p (flat_map f l) = flat_map (fun x => filter p (f x)) l.
Proof.
  induction l as [|x l IH]; simpl; [reflexivity |]. now rewrite filter_app, IH.
Qed.

Lemma flat_map_ext_in {A B : Type} (f g : A -> list B) (l : list A) :
  (forall x, In x l -> f x = g x) -> flat_map f l = flat_map g l.
Proof.
  induction l as [|x l IH]; simpl; intros H; [reflexivity |].
  rewrite H by now left. now rewrite IH by (intros; apply H; now right).
Qed.

Lemma flat_map_flat_map {A B C : Type} (f : A -> list B) (g : B -> list C) (l : list A) :
  flat_map g (flat_map f l) = flat_map (fun x => flat_map g (f x)) l.
Proof.
  induction l as [|x l IH]; simpl; [reflexivity |]. now rewrite flat_map_app, IH.
Qed.

Lemma flat_map_nil {A B : Type} (f : A -> list B) (l : list A) :
  (forall x, In x l -> f x = []) -> flat_map f l = [].
Proof.
  induction l as [|x l IH]; simpl; intros H; [reflexivity |].
  rewrite H by now left. now rewrite IH by (intros; apply H; now right).
Qed.

Lemma filter_all {A : Type} (p : A -> bool) (l : list A) :
  (forall x, In x l -> p x = true) -> filter p l = l.
Proof.
  induction l as [|x l IH]; simpl; intros H; [reflexivity |].
  rewrite H by now left. now rewrite IH by (intros; apply H; now right).
Qed.

Lemma filter_none {A : Type} (p : A -> bool) (l : list A) :
  (forall x, In x l -> p x = false) -> filter p l = [].
Proof.
  induction l as [|x l IH]; simpl; intros H; [reflexivity |].
  rewrite H by now left. now rewrite IH by (intros; apply H; now right).
Qed.

Lemma single_letter_issues_kind (lineno : Z) (targets : list node) (i : issue) :
  In i (single_letter_issues lineno targets) -> is_single_letter i = true.
Proof.
  unfold single_letter_issues. rewrite in_flat_map. intros (t & _ & Hi).
  destruct t; try contradiction.
  destruct ((len id =? 1) && isalpha id); [| contradiction].
  destruct Hi as [<-|[]]. reflexivity.
Qed.

(** Case analysis on every test in the issues of one node. *)
Ltac each_test :=
  repeat match goal with
         | |- context [if ?b then _ else _] => destruct b
         | |- context [match ?x with [] => _ | _ :: _ => _ end] => destruct x
         end;
  try reflexivity.

Ltac own_issues_by_cases n :=
  destruct n as [[] ? ? ? ? ?|[] ? ? ? ?|? ? ?|?|?|? ?|? ?];
  unfold own_issues, docstring_issues, check_docstring_issues; simpl; each_test.

Lemma own_function_found (d : Z) (n : node) :
  filter is_function_found (own_issues d n)
  = match n with
    | Def FunctionDef lineno name _ _ _ => [(lineno, FunctionFound name lineno)]
    | _ => []
    end.
Proof.
  own_issues_by_cases n.
  apply filter_none. intros i Hi. apply single_letter_issues_kind in Hi.
  destruct i as [? []]; cbv in Hi |- *; congruence.
Qed.

Lemma own_class_naming (d : Z) (n : node) :
  filter is_class_naming (own_issues d n)
  = match n with
    | Def ClassDef lineno name _ _ _ =>
        if re_match CAPWORDS_REGEX name then []
        else [(lineno, ClassNotCapWords name lineno)]
    | _ => []
    end.
Proof.
  destruct n as [[] lineno name ? ? ?|[] ? ? ? ?|? ? ?|?|?|? ?|? ?];
    unfold own_issues, docstring_issues, check_docstring_issues; simpl;
    try destruct (re_match CAPWORDS_REGEX name); simpl; each_test.
  apply filter_none. intros i Hi. apply single_letter_issues_kind in Hi.
  destruct i as [? []]; cbv in Hi |- *; congruence.
Qed.

Lemma own_single_letter (d : Z) (n : node) :
  filter is_single_letter (own_issues d n)
  = match n with
    | Assign lineno targets _ => single_letter_issues lineno targets
    | _ => []
    end.
Proof.
  own_issues_by_cases n.
  apply filter_all. apply single_letter_issues_kind.
Qed.

Lemma own_nesting (d : Z) (n : node) :
  filter is_nesting (own_issues d n)
  = match n with
    | Loop c lineno _ _ _ => if 1 <? d + 1 then nesting_issue c lineno else []
    | _ => []
    end.
Proof.
  own_issues_by_cases n.
  apply filter_none. intros i Hi. apply single_letter_issues_kind in Hi.
  destruct i as [? []]; cbv in Hi |- *; congruence.
Qed.

(** The issues of one rule in a visit, when the rule does not look at the
    loop depth: those of each node, in pre-order. *)
Lemma filter_tree_issues (p : issue -> bool) (g : node -> list issue) :
  (forall d n, filter p (own_issues d n) = g n) ->
  forall n d, filter p (tree_issues n d) = flat_map g (subnodes n).
Proof.
  intros Hown n. induction n as [n IH] using node_children_ind. intros d.
  rewrite tree_issues_children, subnodes_children, filter_app, filter_flat_map, Hown.
  simpl. f_equal. rewrite flat_map_flat_map. apply flat_map_ext_in.
  intros c Hin. now apply IH.
Qed.

Lemma loops_inside_children (n : node) (inside : bool) :
  loops_inside n inside
  = (match n with
     | Loop c lineno _ _ _ => if inside then nesting_issue c lineno else []
     | _ => []
     end)
    ++ flat_map (fun c => loops_inside c (inside || is_counted_loop n)) (children n).
Proof.
  unfold loops_inside at 1. rewrite fold_node_children. fold loops_inside.
  f_equal. induction (children n) as [|c cs IH]; simpl; [reflexivity | now rewrite IH].
Qed.

(** The nesting issues of a visit are those of the loops that lie inside
    a counted loop: the counter is above 0 exactly inside one. *)
Lemma nesting_tree_issues (n : node) (d : Z) :
  0 <= d -> filter is_nesting (tree_issues n d) = loops_inside n (0 <? d).
Proof.
  revert d. induction n as [n IH] using node_children_ind. intros d Hd.
  rewrite tree_issues_children, loops_inside_children, filter_app, filter_flat_map,
    own_nesting.
  f_equal.
  - destruct n; try reflexivity.
    replace (1 <? d + 1) with (0 <? d) by (destruct (Z.ltb_spec 0 d), (Z.ltb_spec 1 (d + 1)); lia).
    reflexivity.
  - apply flat_map_ext_in. intros c Hin.
    assert (Hdepth : 0 <= inner_depth d n /\
                     (0 <? inner_depth d n) = ((0 <? d) || is_counted_loop n)).
    { destruct n as [? ? ? ? ? ?|[] ? ? ? ?|? ? ?|?|?|? ?|? ?]; simpl;
        rewrite ?orb_false_r, ?orb_true_r; split; try lia; try reflexivity;
        destruct (Z.ltb_spec 0 (d + 1)); lia. }
    destruct Hdepth as [Hpos <-]. now apply IH.
Qed.

(** ** Properties of the merge *)

Lemma insert_by_line_hd (x a : issue) (l : list issue) :
  HdRel line_le a l -> line_le a x -> HdRel line_le a (insert_by_line x l).
Proof.
  intros Hl Hx. destruct l as [|y l]; simpl; [now constructor |].
  destruct (fst x <=? fst y); constructor; [assumption | now inversion Hl].
Qed.

Lemma insert_by_line_sorted (x : issue) (l : list issue) :
  Sorted line_le l -> Sorted line_le (insert_by_line x l).
Proof.
  induction l as [|y l IH]; intros Hs; simpl.
  - repeat constructor.
  - apply Sorted_inv in Hs as [Hs Hhd].
    destruct (Z.leb_spec (fst x) (fst y)) as [Hle|Hgt].
    + constructor; [now constructor | now constructor].
    + constructor; [now apply IH |].
      apply insert_by_line_hd; [assumption | unfold line_le; lia].
Qed.

Lemma sort_by_line_sorted (l : list issue) : StronglySorted line_le (sort_by_line l).
Proof.
  apply Sorted_StronglySorted.
  - intros a b c. unfold line_le. lia.
  - induction l as [|x l IH]; simpl; [constructor | now apply insert_by_line_sorted].
Qed.

Lemma insert_by_line_on_line (n : Z) (x : issue) (l : list issue) :
  filter (on_line n) (insert_by_line x l) = filter (on_line n) (x :: l).
Proof.
  induction l as [|y l IH]; [reflexivity |]. cbn [insert_by_line].
  destruct (Z.leb_spec (fst x) (fst y)) as [Hle|Hgt]; [reflexivity |].
  cbn [filter] in *. rewrite IH. unfold on_line.
  destruct (Z.eqb_spec (fst x) n), (Z.eqb_spec (fst y) n); try reflexivity. lia.
Qed.

Lemma sort_by_line_stable (n : Z) (l : list issue) :
  filter (on_line n) (sort_by_line l) = filter (on_line n) l.
Proof.
  induction l as [|x l IH]; [reflexivity |]. cbn [sort_by_line fold_right].
  fold (sort_by_line l). rewrite insert_by_line_on_line. cbn [filter]. now rewrite IH.
Qed.

Lemma insert_by_line_perm (x : issue) (l : list issue) :
  Permutation (x :: l) (insert_by_line x l).
Proof.
  induction l as [|y l IH]; simpl; [reflexivity |].
  destruct (fst x <=? fst y); [reflexivity |].
  rewrite perm_swap. now constructor.
Qed.

Lemma sort_by_line_perm (l : list issue) : Permutation l (sort_by_line l).
Proof.
  induction l as [|x l IH]; simpl; [constructor |].
  rewrite <- insert_by_line_perm. now constructor.
Qed.

(** ** Properties of the line passes *)

Lemma enumerate_from {A : Type} (start : Z) (xs : list A) (n : Z) (x : A) :
  In (n, x) (enumerate start xs) -> start <= n.
Proof.
  revert start. induction xs as [|y xs IH]; simpl; intros start H; [contradiction |].
  destruct H as [H|H]; [injection H as <- _; lia |].
  apply IH in H. lia.
Qed.

(** When every issue of a numbered line carries the number of the line,
    the issues on the line of the [k]-th line are the issues of that line. *)
Lemma per_line_on_line (per_line : Z * str -> list issue) :
  (forall n l i, In i (per_line (n, l)) -> fst i = n) ->
  forall lines start k line,
    nth_error lines k = Some line ->
    filter (on_line (start + Z.of_nat k)) (flat_map per_line (enumerate start lines))
    = per_line (start + Z.of_nat k, line).
Proof.
  intros Hline lines. induction lines as [|l lines IH]; intros start k line Hk.
  - destruct k; discriminate.
  - cbn [enumerate flat_map]. rewrite filter_app. destruct k as [|k]; simpl in Hk.
    + injection Hk as ->. rewrite Z.add_0_r.
      rewrite filter_all, filter_none; [apply app_nil_r | |].
      * intros i Hi. apply in_flat_map in Hi as ([n l'] & Hin & Hi).
        apply enumerate_from in Hin. apply Hline in Hi.
        unfold on_line. destruct (Z.eqb_spec (fst i) start); [lia | reflexivity].
      * intros i Hi. apply Hline in Hi. unfold on_line. now apply Z.eqb_eq.
    + rewrite filter_none.
      * replace (start + Z.of_nat (S k)) with (start + 1 + Z.of_nat k) by lia.
        now apply IH.
      * intros i Hi. apply Hline in Hi.
        unfold on_line. destruct (Z.eqb_spec (fst i) (start + Z.of_nat (S k))); [lia | reflexivity].
Qed.

Lemma line_length_issue_line (n : Z) (l : str) (i : issue) :
  In i (line_length_issue (n, l)) -> fst i = n.
Proof.
  unfold line_length_issue.
  repeat match goal with |- context [if ?b then _ else _] => destruct b end;
    simpl; intros H; try contradiction; destruct H as [<-|[]]; reflexivity.
Qed.

(** ** The report *)

(** C1: for a source that parses, a report that the engine returns is
    ordered by line number, non-decreasing, and its issues of any one line
    are those of the concatenation tree rules, comment scan, length scan,
    import scan, in that order (the sort is stable); it is a permutation of
    that concatenation.  The engine does return a report when the visit
    stays within the recursion limit and the tokenizer does not fail. *)
Theorem report_sorted_and_stable (recursion_limit : nat) (f : source_file)
    (source_code : str) (tree : node) :
  text f = Returned source_code ->
  ast_parse f = Returned tree ->
  (forall report,
      run_snark_linter recursion_limit (Some f) = Returned report ->
      exists self' comment_issues length_issues import_issues,
        visit recursion_limit tree new_linter = Normal self' /\
        find_comment_issues (Some f) = Returned comment_issues /\
        find_line_length_issues (Some f) = Returned length_issues /\
        find_import_issues (Some f) = Returned import_issues /\
        StronglySorted line_le report /\
        Permutation
          (issues self' ++ comment_issues ++ length_issues ++ import_issues) report /\
        forall n,
          filter (on_line n) report
          = filter (on_line n)
              (issues self' ++ comment_issues ++ length_issues ++ import_issues))
  /\ ((height tree <= recursion_limit)%nat ->
      snd (tokens f) = None ->
      exists report, run_snark_linter recursion_limit (Some f) = Returned report).
Proof.
  intros Htext Hparse. split.
  - intros report. unfold run_snark_linter. rewrite Htext. cbn [bind]. rewrite Hparse.
    destruct (visit recursion_limit tree new_linter) as [self'|e self']; [| discriminate].
    destruct (find_comment_issues (Some f)) as [comment_issues|e]; [| discriminate].
    destruct (find_line_length_issues (Some f)) as [length_issues|e]; [| discriminate].
    destruct (find_import_issues (Some f)) as [import_issues|e]; [| discriminate].
    cbn [bind]. intros [= <-].
    exists self', comment_issues, length_issues, import_issues.
    repeat split; try reflexivity.
    + apply sort_by_line_sorted.
    + apply sort_by_line_perm.
    + intros n. apply sort_by_line_stable.
  - intros Hh Htok. unfold run_snark_linter, find_comment_issues,
      find_line_length_issues, find_import_issues.
    rewrite Htext. cbn [bind]. rewrite Hparse, (visit_returns _ _ _ Hh), Htok.
    cbn [bind]. eauto.
Qed.

(** C2, as the code has it: the engine recovers from a parse that raises
    [SyntaxError], and from that failure only.  It then returns exactly
    one issue, the syntax error, whatever the tokens and the lines of the
    file are; its line is the one the parser reported, and 1 when the
    parser reported none ([None], or the falsy line 0).  When reading or
    parsing fails with any other exception, the engine returns no issue:
    the exception leaves it. *)
Theorem syntax_error_single_issue (recursion_limit : nat) (f : source_file)
    (e : exn) :
  (source_code <- text f ;;; ast_parse f) = Raised e ->
  (forall lineno,
      e = SyntaxError lineno ->
      exists line_number,
        run_snark_linter recursion_limit (Some f)
        = Returned [(line_number, SyntaxErrorAt line_number)] /\
        (forall n, lineno = Some n -> n <> 0 -> line_number = n) /\
        (lineno = None \/ lineno = Some 0 -> line_number = 1))
  /\ ((forall lineno, e <> SyntaxError lineno) ->
      run_snark_linter recursion_limit (Some f) = Raised e).
Proof.
  intros Hfail. split.
  - intros lineno ->. exists (line_number_of lineno). repeat split.
    + unfold run_snark_linter. now rewrite Hfail.
    + intros n -> Hn. simpl. destruct (Z.eqb_spec n 0); [contradiction | reflexivity].
    + intros [->| ->]; reflexivity.
  - intros Hother. unfold run_snark_linter. rewrite Hfail.
    destruct e; try reflexivity. now contradiction (Hother lineno).
Qed.

(** C6, as the code has it: when the tokenizer fails on a source that
    parsed, the comment scan raises the tokenizer's exception, and the
    engine returns no report: the run ends with an exception, the
    tokenizer's when the visit of the tree had returned.  The comment scan
    returns the empty list without reading anything only for a path that
    does not exist. *)
Theorem tokenizer_failure_aborts (recursion_limit : nat) (f : source_file)
    (source_code : str) (tree : node) (e : exn) :
  text f = Returned source_code ->
  ast_parse f = Returned tree ->
  snd (tokens f) = Some e ->
  find_comment_issues (Some f) = Raised e /\
  (forall report, run_snark_linter recursion_limit (Some f) <> Returned report) /\
  ((height tree <= recursion_limit)%nat ->
   run_snark_linter recursion_limit (Some f) = Raised e) /\
  find_comment_issues None = Returned [].
Proof.
  intros Htext Hparse Htok.
  assert (Hc : find_comment_issues (Some f) = Raised e)
    by (unfold find_comment_issues; now rewrite Htok).
  repeat split; try assumption.
  - intros report. unfold run_snark_linter. rewrite Htext. cbn [bind].
    rewrite Hparse, Hc.
    destruct (visit recursion_limit tree new_linter); discriminate.
  - intros Hh. unfold run_snark_linter. rewrite Htext. cbn [bind].
    now rewrite Hparse, (visit_returns _ _ _ Hh), Hc.
Qed.

(** C8: for a physical line that is not empty and not made of whitespace
    only, the length scan reports on that line exactly this: one comment
    issue when the line left-trimmed starts with the comment marker and the
    raw line is longer than 72, one code issue when it does not start with
    the marker and the raw line is longer than 79, nothing otherwise.  So
    a comment line of 73 characters is reported and one of 72 is not, and
    a code line of 80 is reported and one of 79 is not. *)
Theorem line_length_rule (f : source_file) (content : str) (k : nat) (line : str) :
  text f = Returned content ->
  nth_error (file_lines content) k = Some line ->
  truthy (strip (rstrip_newline line)) = true ->
  let raw_line := rstrip_newline line in
  let line_no := 1 + Z.of_nat k in
  let comment := startswith (lstrip raw_line) (lit "#") in
  exists length_issues,
    find_line_length_issues (Some f) = Returned length_issues /\
    filter (on_line line_no) length_issues
    = (if comment
       then if 72 <? len raw_line
            then [(line_no, CommentLineTooLong line_no (len raw_line))] else []
       else if 79 <? len raw_line
            then [(line_no, CodeLineTooLong line_no (len raw_line))] else []) /\
    (comment = true -> len raw_line = 73 ->
     filter (on_line line_no) length_issues = [(line_no, CommentLineTooLong line_no 73)]) /\
    (comment = true -> len raw_line = 72 -> filter (on_line line_no) length_issues = []) /\
    (comment = false -> len raw_line = 80 ->
     filter (on_line line_no) length_issues = [(line_no, CodeLineTooLong line_no 80)]) /\
    (comment = false -> len raw_line = 79 -> filter (on_line line_no) length_issues = []).
Proof.
  intros Htext Hk Hblank. cbv zeta.
  eexists. split; [unfold find_line_length_issues; rewrite Htext; reflexivity |].
  rewrite (per_line_on_line _ line_length_issue_line _ _ _ _ Hk).
  unfold line_length_issue. rewrite Hblank. cbn [negb].
  split; [reflexivity |].
  destruct (startswith (lstrip (rstrip_newline line)) (lit "#"));
    repeat split; intros Hc Hlen; try discriminate; rewrite Hlen; reflexivity.
Qed.

(** ** The loop rules *)

Lemma visit_loop (depth : nat) (c : loop_class) (lineno : Z)
    (head body orelse : list node) (self : linter) :
  counted c = true ->
  visit (S depth) (Loop c lineno head body orelse) self
  = match generic_visit depth (Loop c lineno head body orelse)
            (Linter (issues self
                      ++ (if 1 <? loop_depth self + 1 then nesting_issue c lineno else []))
                    (loop_depth self + 1)) with
    | Normal self' => Normal (Linter (issues self') (loop_depth self' - 1))
    | Raise e self' => Raise e self'
    end.
Proof.
  intros Hc. destruct c; try discriminate; cbn [visit].
  - now rewrite (visit_For_own _ _ head body orelse).
  - now rewrite (visit_While_own _ _ head body orelse).
Qed.

(** C3, as the code has it: the counter is incremented before the descent
    into a counted loop and decremented when the descent returns, so a
    visit of a loop that returns leaves the depth at its prior value.  The
    decrement is not tied to the other exits: when the descent raises, the
    exception leaves the visit with the counter still above its prior
    value. *)
Theorem loop_depth_settled (depth : nat) (c : loop_class) (lineno : Z)
    (head body orelse : list node) (self : linter) :
  counted c = true ->
  let n := Loop c lineno head body orelse in
  visit (S depth) n self
  = match generic_visit depth n
            (Linter (issues self
                      ++ (if 1 <? loop_depth self + 1 then nesting_issue c lineno else []))
                    (loop_depth self + 1)) with
    | Normal self' => Normal (Linter (issues self') (loop_depth self' - 1))
    | Raise e self' => Raise e self'
    end
  /\ (forall d self', visit d n self = Normal self' -> loop_depth self' = loop_depth self)
  /\ (forall e self',
        visit (S depth) n self = Raise e self' -> loop_depth self < loop_depth self').
Proof.
  intros Hc n. unfold n. split; [now apply visit_loop |]. split.
  - intros d self' H. pose proof (visit_keeps_depth d n self) as Hs.
    unfold n in Hs. now rewrite H in Hs.
  - intros e self' H. rewrite (visit_loop _ _ _ _ _ _ _ Hc) in H.
    match type of H with
    | context [generic_visit depth ?m ?s] =>
        pose proof (keeps_depth_for_each (children m) (visit depth)
                      (visit_keeps_depth depth) s) as Hs;
        fold (generic_visit depth m) in Hs;
        destruct (generic_visit depth m s); [discriminate |]
    end.
    injection H as _ <-. simpl in Hs. lia.
Qed.

Lemma loops_inside_loop (c : loop_class) (lineno : Z) (head body orelse : list node)
    (inside : bool) :
  counted c = true ->
  loops_inside (Loop c lineno head body orelse) inside
  = (if inside then nesting_issue c lineno else [])
    ++ flat_map (fun x => loops_inside x true) (head ++ body ++ orelse).
Proof.
  intros Hc. rewrite loops_inside_children. cbn [is_counted_loop children].
  now rewrite Hc, orb_true_r.
Qed.

Lemma loops_inside_around (c : loop_class) (lineno : Z) (head body orelse : list node)
    (x : node) (inside : bool) :
  counted c = true ->
  loop_free head -> only_loop x body -> loop_free orelse ->
  loops_inside (Loop c lineno head body orelse) inside
  = (if inside then nesting_issue c lineno else []) ++ loops_inside x true.
Proof.
  intros Hc Hh (before & after & -> & Hb & Ha) Ho.
  rewrite (loops_inside_loop _ _ _ _ _ _ Hc). f_equal.
  unfold loop_free in *. rewrite !flat_map_app. cbn [flat_map].
  rewrite Hh, Hb, Ha, Ho. cbn [app]. now rewrite !app_nil_r.
Qed.

Lemma visit_nesting (depth : nat) (tree : node) :
  (height tree <= depth)%nat ->
  exists self',
    visit depth tree new_linter = Normal self' /\
    filter is_nesting (issues self') = loops_inside tree false.
Proof.
  intros Hh. eexists. split; [now apply visit_returns |].
  cbn [issues new_linter loop_depth app]. now rewrite nesting_tree_issues.
Qed.

(** C4, as the code has it: the visit of a [For] or a [While] loop
    increments the depth and appends one nesting issue at the line of the
    loop exactly when the depth is then above 1, before it descends.  Over
    a whole tree the nesting issues are those of the [For] and [While]
    loops that lie inside a [For] or [While] loop, in pre-order: none for
    a loop that is not nested, the one of the inner loop for a loop inside
    a loop, and two for three levels.  An [AsyncFor] loop has no rule: its
    visit is the plain descent, which neither counts nor reports it. *)
Theorem nesting_rule :
  (forall depth c lineno head body orelse self,
      counted c = true ->
      visit (S depth) (Loop c lineno head body orelse) self
      = match generic_visit depth (Loop c lineno head body orelse)
                (Linter (issues self
                          ++ (if 1 <? loop_depth self + 1
                              then nesting_issue c lineno else []))
                        (loop_depth self + 1)) with
        | Normal self' => Normal (Linter (issues self') (loop_depth self' - 1))
        | Raise e self' => Raise e self'
        end)
  /\ (forall depth tree,
        (height tree <= depth)%nat ->
        exists self',
          visit depth tree new_linter = Normal self' /\
          filter is_nesting (issues self') = loops_inside tree false)
  /\ (forall depth c lineno head body orelse,
        let single := Loop c lineno head body orelse in
        counted c = true ->
        loop_free (head ++ body ++ orelse) ->
        (height single <= depth)%nat ->
        exists self',
          visit depth single new_linter = Normal self' /\
          filter is_nesting (issues self') = [])
  /\ (forall depth c1 l1 head1 body1 orelse1 c2 l2 head2 body2 orelse2,
        let inner := Loop c2 l2 head2 body2 orelse2 in
        let outer := Loop c1 l1 head1 body1 orelse1 in
        counted c1 = true -> counted c2 = true ->
        loop_free head1 -> only_loop inner body1 -> loop_free orelse1 ->
        loop_free (head2 ++ body2 ++ orelse2) ->
        (height outer <= depth)%nat ->
        exists self',
          visit depth outer new_linter = Normal self' /\
          filter is_nesting (issues self') = nesting_issue c2 l2 /\
          length (filter is_nesting (issues self')) = 1%nat /\
          Forall (fun i => fst i = l2) (filter is_nesting (issues self')))
  /\ (forall depth c1 l1 head1 body1 orelse1 c2 l2 head2 body2 orelse2
             c3 l3 head3 body3 orelse3,
        let innermost := Loop c3 l3 head3 body3 orelse3 in
        let middle := Loop c2 l2 head2 body2 orelse2 in
        let outer := Loop c1 l1 head1 body1 orelse1 in
        counted c1 = true -> counted c2 = true -> counted c3 = true ->
        loop_free head1 -> only_loop middle body1 -> loop_free orelse1 ->
        loop_free head2 -> only_loop innermost body2 -> loop_free orelse2 ->
        loop_free (head3 ++ body3 ++ orelse3) ->
        (height outer <= depth)%nat ->
        exists self',
          visit depth outer new_linter = Normal self' /\
          filter is_nesting (issues self') = nesting_issue c2 l2 ++ nesting_issue c3 l3 /\
          length (filter is_nesting (issues self')) = 2%nat)
  /\ (forall depth lineno head body orelse self,
        visit (S depth) (Loop AsyncFor lineno head body orelse) self
        = generic_visit depth (Loop AsyncFor lineno head body orelse) self).
Proof.
  split; [intros; now apply visit_loop |].
  split; [exact visit_nesting |].
  split; [| split; [| split; [| reflexivity]]].
  - intros depth c lineno head body orelse single Hc Hfree Hh.
    destruct (visit_nesting depth single Hh) as (self' & Hv & Hn).
    exists self'. split; [assumption |]. rewrite Hn. unfold single.
    rewrite (loops_inside_loop _ _ _ _ _ _ Hc). exact Hfree.
  - intros depth c1 l1 head1 body1 orelse1 c2 l2 head2 body2 orelse2 inner outer
      Hc1 Hc2 Hh1 Hb1 Ho1 Hfree Hh.
    destruct (visit_nesting depth outer Hh) as (self' & Hv & Hn).
    exists self'. split; [assumption |]. rewrite Hn. unfold outer.
    rewrite (loops_inside_around _ _ _ _ _ _ _ Hc1 Hh1 Hb1 Ho1). unfold inner.
    rewrite (loops_inside_loop _ _ _ _ _ _ Hc2), Hfree, app_nil_r.
    destruct c2; try discriminate; repeat split; repeat constructor.
  - intros depth c1 l1 head1 body1 orelse1 c2 l2 head2 body2 orelse2
      c3 l3 head3 body3 orelse3 innermost middle outer
      Hc1 Hc2 Hc3 Hh1 Hb1 Ho1 Hh2 Hb2 Ho2 Hfree Hh.
    destruct (visit_nesting depth outer Hh) as (self' & Hv & Hn).
    exists self'. split; [assumption |]. rewrite Hn. unfold outer.
    rewrite (loops_inside_around _ _ _ _ _ _ _ Hc1 Hh1 Hb1 Ho1). unfold middle.
    rewrite (loops_inside_around _ _ _ _ _ _ _ Hc2 Hh2 Hb2 Ho2). unfold innermost.
    rewrite (loops_inside_loop _ _ _ _ _ _ Hc3), Hfree, app_nil_r.
    destruct c2, c3; try discriminate; split; reflexivity.
Qed.

(** ** The naming and assignment rules *)

Lemma visit_filtered (p : issue -> bool) (g : node -> list issue)
    (depth : nat) (tree : node) :
  (forall d n, filter p (own_issues d n) = g n) ->
  (height tree <= depth)%nat ->
  exists self',
    visit depth tree new_linter = Normal self' /\
    filter p (issues self') = flat_map g (subnodes tree).
Proof.
  intros Hown Hh. eexists. split; [now apply visit_returns |].
  cbn [issues new_linter loop_depth app]. now apply filter_tree_issues.
Qed.

Lemma re_match_capwords (name : str) :
  re_match CAPWORDS_REGEX name
  = capwords_shape name
    || match rev name with
       | c :: s' => (c =? newline)%N && capwords_shape (rev s')
       | [] => false
       end.
Proof.
  unfold re_match. rewrite fullmatch_capwords.
  destruct (rev name); [reflexivity |]. now rewrite fullmatch_capwords.
Qed.

(** C5, as the code has it: the pattern of the code asks for a second
    character.  A name, which holds no line feed, matches it exactly when
    it starts with an upper-case ASCII letter that is followed by one or
    more ASCII letters or digits; and the class-naming issues of a visit
    are, for each class definition in pre-order, one issue at the line of
    the definition when its name does not match, none when it does. *)
Theorem class_naming_rule :
  (forall name,
      re_match CAPWORDS_REGEX name
      = capwords_shape name
        || match rev name with
           | c :: s' => (c =? newline)%N && capwords_shape (rev s')
           | [] => false
           end)
  /\ (forall name, ~ In newline name ->
        re_match CAPWORDS_REGEX name = capwords_shape name)
  /\ (forall depth tree,
        (height tree <= depth)%nat ->
        exists self',
          visit depth tree new_linter = Normal self' /\
          filter is_class_naming (issues self') = flat_map class_naming_of (subnodes tree)).
Proof.
  split; [exact re_match_capwords |]. split.
  - intros name Hnl. rewrite re_match_capwords.
    destruct (rev name) as [|c s'] eqn:Er; [apply orb_false_r |].
    destruct (N.eqb_spec c newline) as [->|_]; [| apply orb_false_r].
    exfalso. apply Hnl. apply in_rev. rewrite Er. now left.
  - intros depth tree. apply visit_filtered. exact own_class_naming.
Qed.

(** C7, as the code has it: every [FunctionDef] node of the tree, wherever
    it is, gives one existence issue at its line, whatever its name and its
    body: the existence issues of a visit are those, in pre-order.  A
    routine of another form, an [AsyncFunctionDef], gives none. *)
Theorem function_found_rule (depth : nat) (tree : node) :
  (height tree <= depth)%nat ->
  exists self',
    visit depth tree new_linter = Normal self' /\
    filter is_function_found (issues self') = flat_map function_found_of (subnodes tree).
Proof. apply visit_filtered. exact own_function_found. Qed.

(** C9, as the code has it: the check looks at every target of an
    assignment in turn, so a chained assignment gives one issue for each of
    its targets that is a simple name of one alphabetic character.  The
    single-letter issues of a visit are those of the [Assign] nodes, in
    pre-order: one issue at the line of the assignment for such a target,
    none for a target that is not a simple name (attribute, subscript,
    tuple), and none for a node of another class (augmented assignment). *)
Theorem single_letter_rule :
  (forall depth tree,
      (height tree <= depth)%nat ->
      exists self',
        visit depth tree new_linter = Normal self' /\
        filter is_single_letter (issues self') = flat_map single_letter_of (subnodes tree))
  /\ (forall lineno id ctx,
        single_letter_issues lineno [Name id ctx]
        = if (len id =? 1) && isalpha id
          then [(lineno, SingleLetterVariable id lineno)] else [])
  /\ (forall lineno target targets,
        single_letter_issues lineno (target :: targets)
        = single_letter_issues lineno [target] ++ single_letter_issues lineno targets)
  /\ (forall lineno targets,
        forallb (fun t => negb (is_name t)) targets = true ->
        single_letter_issues lineno targets = [])
  /\ (forall cls fields, single_letter_of (Other cls fields) = []).
Proof.
  split; [intros depth tree; apply visit_filtered; exact own_single_letter |].
  split; [intros; unfold single_letter_issues; simpl; apply app_nil_r |].
  split; [intros; unfold single_letter_issues; simpl; now rewrite app_nil_r |].
  split; [| reflexivity].
  intros lineno targets H. unfold single_letter_issues. apply flat_map_nil.
  intros t Hin. rewrite forallb_forall in H. specialize (H t Hin). now destruct t.
Qed.

(** ** The docstring rules *)

Lemma forallb_repeat {A : Type} (p : A -> bool) (x : A) (n : nat) :
  p x = true -> forallb p (repeat x n) = true.
Proof. intros H. induction n; simpl; [reflexivity | now rewrite H]. Qed.

Lemma all_newlines (s : str) :
  forallb (N.eqb newline) s = true -> s = repeat newline (length s).
Proof.
  induction s as [|c s IH]; cbn [forallb length repeat]; intros H; [reflexivity |].
  apply andb_true_iff in H as [Hc Hs]. apply N.eqb_eq in Hc. subst c.
  now rewrite <- IH.
Qed.

Lemma expandtabs_newlines (k col : nat) :
  expandtabs_from col (repeat newline k) = repeat newline k.
Proof.
  revert col. induction k as [|k IH]; intros col; simpl; [reflexivity |]. now rewrite IH.
Qed.

Lemma expandtabs_blank (text : str) (col : nat) :
  blank_first_line text = true ->
  exists first k,
    expandtabs_from col text = first ++ repeat newline k /\
    forallb isspace first = true /\
    forallb (fun c => negb (c =? newline)%N) first = true.
Proof.
  revert col. induction text as [|c text IH]; intros col H.
  - now exists [], 0%nat.
  - cbn [blank_first_line] in H. destruct (N.eqb_spec c newline) as [->|Hc].
    + exists [], (S (length text)). repeat split.
      rewrite (all_newlines _ H) at 1. cbn. now rewrite expandtabs_newlines.
    + apply andb_true_iff in H as [Hs Hrest]. cbn [expandtabs_from].
      destruct (N.eqb_spec c 9) as [->|Htab].
      * destruct (IH (col + (8 - col mod 8))%nat Hrest) as (first & k & E & H1 & H2).
        exists (repeat (chr " ") (8 - col mod 8) ++ first), k.
        repeat split.
        -- now rewrite E, <- app_assoc.
        -- rewrite forallb_app. apply andb_true_iff.
           split; [now apply forallb_repeat | exact H1].
        -- rewrite forallb_app. apply andb_true_iff.
           split; [now apply forallb_repeat | exact H2].
      * assert (Hkeep : forall col', exists first k,
                   c :: expandtabs_from col' text = first ++ repeat newline k /\
                   forallb isspace first = true /\
                   forallb (fun c => negb (c =? newline)%N) first = true).
        { intros col'. destruct (IH col' Hrest) as (first & k & E & H1 & H2).
          exists (c :: first), k. repeat split.
          - now rewrite E.
          - cbn [forallb]. apply andb_true_iff. now split.
          - cbn [forallb]. apply andb_true_iff. split; [| exact H2].
            destruct (N.eqb_spec c newline); [contradiction | reflexivity]. }
        destruct ((c =? 10)%N || (c =? 13)%N); apply Hkeep.
Qed.

Lemma split_lines_newlines (k : nat) :
  split_lines (repeat newline k) = [] :: repeat [] k.
Proof. induction k as [|k IH]; simpl; [reflexivity | now rewrite IH]. Qed.

Lemma split_lines_first (first : str) (k : nat) :
  forallb (fun c => negb (c =? newline)%N) first = true ->
  split_lines (first ++ repeat newline k) = first :: repeat [] k.
Proof.
  induction first as [|c first IH]; intros H; [apply split_lines_newlines |].
  cbn [forallb] in H. apply andb_true_iff in H as [Hc Hrest].
  cbn [app split_lines]. rewrite (IH Hrest).
  now destruct (c =? newline)%N.
Qed.

Lemma margin_of_blank_lines (k : nat) : margin_of (repeat [] k) = None.
Proof. unfold margin_of. induction k as [|k IH]; simpl; [reflexivity | exact IH]. Qed.

Lemma lstrip_whitespace (s : str) : forallb isspace s = true -> lstrip s = [].
Proof.
  unfold lstrip. induction s as [|c s IH]; simpl; intros H; [reflexivity |].
  apply andb_true_iff in H as [Hc Hs]. rewrite Hc. now apply IH.
Qed.

Lemma drop_blank_all_blank (lines : list str) :
  (forall l, In l lines -> l = []) -> drop_blank lines = [].
Proof.
  induction lines as [|l lines IH]; intros H; [reflexivity |].
  rewrite (H l) by now left. simpl. apply IH. intros; apply H; now right.
Qed.

Lemma clean_blank_lines (lines : list str) :
  (forall l, In l lines -> l = []) ->
  join_lines (drop_blank (rev (drop_blank (rev lines)))) = [].
Proof.
  intros H. rewrite (drop_blank_all_blank (rev lines)); [reflexivity |].
  intros l Hl. apply H. now apply in_rev.
Qed.

Lemma cleandoc_blank (text : str) : blank_first_line text = true -> cleandoc text = [].
Proof.
  intros H. unfold cleandoc, expandtabs.
  destruct (expandtabs_blank text 0 H) as (first & k & -> & Hs & Hn).
  rewrite (split_lines_first _ _ Hn). cbn [tl].
  rewrite margin_of_blank_lines, (lstrip_whitespace _ Hs).
  apply clean_blank_lines.
  intros l [<-|Hl]; [reflexivity | now apply repeat_spec in Hl].
Qed.

(** *** The literals that are cleaned to the empty string *)

Lemma split_lines_not_nil (s : str) : exists l ls, split_lines s = l :: ls.
Proof.
  induction s as [|c s (l & ls & E)]; simpl; [now exists [], [] |].
  rewrite E. destruct (c =? newline)%N; eauto.
Qed.

Lemma join_split_lines (s : str) : join_lines (split_lines s) = s.
Proof.
  induction s as [|c s IH]; [reflexivity |]. cbn [split_lines].
  destruct (split_lines_not_nil s) as (l & ls & E). rewrite E in *.
  destruct (N.eqb_spec c newline) as [->|_].
  - change (join_lines ([] :: l :: ls)) with (newline :: join_lines (l :: ls)).
    now rewrite IH.
  - destruct ls as [|l' ls].
    + cbn [join_lines] in *. now rewrite IH.
    + change (join_lines ((c :: l) :: l' :: ls))
        with (c :: l ++ newline :: join_lines (l' :: ls)).
      change (join_lines (l :: l' :: ls))
        with (l ++ newline :: join_lines (l' :: ls)) in IH.
      now rewrite IH.
Qed.

Lemma split_lines_no_newline (s l : str) :
  In l (split_lines s) -> forallb (fun c => negb (c =? newline)%N) l = true.
Proof.
  revert l. induction s as [|c s IH]; intros l; cbn [split_lines].
  - intros [<-|[]]. reflexivity.
  - destruct (split_lines_not_nil s) as (l1 & ls & E). rewrite E in *.
    destruct (N.eqb_spec c newline) as [->|Hc].
    + intros [<-|H]; [reflexivity | now apply IH].
    + intros [<-|H].
      * cbn [forallb]. apply andb_true_iff. split.
        -- destruct (N.eqb_spec c newline); [contradiction | reflexivity].
        -- apply IH. now left.
      * apply IH. now right.
Qed.

Lemma join_blank_lines (l0 : str) (k : nat) :
  join_lines (l0 :: repeat [] k) = l0 ++ repeat newline k.
Proof.
  revert l0. induction k as [|k IH]; intros l0.
  - cbn [repeat join_lines]. now rewrite app_nil_r.
  - change (join_lines (l0 :: repeat [] (S k)))
      with (l0 ++ newline :: join_lines ([] :: repeat [] k)).
    f_equal. cbn [repeat]. f_equal. exact (IH []).
Qed.

Lemma all_blank_lines (lines : list str) :
  (forall l, In l lines -> l = []) -> lines = repeat [] (length lines).
Proof.
  induction lines as [|l lines IH]; intros H; [reflexivity |]. cbn [length repeat].
  rewrite (H l) by now left. f_equal. apply IH. intros; apply H; now right.
Qed.

Lemma lstrip_nil_whitespace (s : str) : lstrip s = [] -> forallb isspace s = true.
Proof.
  unfold lstrip. induction s as [|c s IH]; cbn [lstrip_by forallb]; [reflexivity |].
  destruct (isspace c); [exact IH | discriminate].
Qed.

Lemma drop_blank_blank (lines : list str) :
  (forall l, In l (drop_blank lines) -> l = []) -> forall l, In l lines -> l = [].
Proof.
  induction lines as [|l0 lines IH]; intros H l Hl; [contradiction |].
  destruct l0 as [|c l0]; [| now apply H].
  destruct Hl as [<-|Hl]; [reflexivity | now apply IH].
Qed.

Lemma join_lines_nil (lines : list str) :
  join_lines lines = [] -> forall l, In l lines -> l = [].
Proof.
  destruct lines as [|l0 [|l1 lines]]; cbn [join_lines]; intros H l Hl.
  - contradiction.
  - destruct Hl as [<-|[]]. exact H.
  - apply app_eq_nil in H as [_ H]. discriminate.
Qed.

Lemma cleaned_blank_lines (lines : list str) :
  join_lines (drop_blank (rev (drop_blank (rev lines)))) = [] ->
  forall l, In l lines -> l = [].
Proof.
  intros H l Hl. apply in_rev in Hl. revert l Hl. apply drop_blank_blank.
  intros l Hl. apply in_rev in Hl. revert l Hl. apply drop_blank_blank.
  now apply join_lines_nil.
Qed.

Lemma lstrip_length (s : str) : (length (lstrip s) <= length s)%nat.
Proof.
  unfold lstrip. induction s as [|c s IH]; cbn [lstrip_by length]; [lia |].
  destruct (isspace c); cbn [length]; lia.
Qed.

(** A margin that was lowered from [sys.maxsize] is the indentation of a
    line with content, or less, so cutting it off leaves that content. *)
Lemma margin_of_content (lines : list str) (m : nat) :
  margin_of lines = Some m -> exists r, In r lines /\ skipn m r <> [].
Proof.
  unfold margin_of.
  set (step := fun (margin : option nat) (line : str) =>
                 let content := length (lstrip line) in
                 if Nat.eqb content 0 then margin
                 else
                   let indent := (length line - content)%nat in
                   Some (match margin with
                         | None => indent
                         | Some m => Nat.min m indent
                         end)).
  assert (Hinv : forall ls acc,
             (forall m', acc = Some m' -> exists r, In r lines /\ skipn m' r <> []) ->
             (forall r, In r ls -> In r lines) ->
             forall m', fold_left step ls acc = Some m' ->
                        exists r, In r lines /\ skipn m' r <> []).
  { induction ls as [|line ls IH]; intros acc Hacc Hsub m' Hm; [now apply Hacc |].
    cbn [fold_left] in Hm. apply (IH (step acc line)); try assumption.
    - intros m1 E. unfold step in E. cbv zeta in E.
      destruct (Nat.eqb_spec (length (lstrip line)) 0) as [_|Hcontent];
        [now apply Hacc |].
      exists line. split; [apply Hsub; now left |].
      intros Hnil. apply (f_equal (@length char)) in Hnil.
      rewrite length_skipn in Hnil. cbn [length] in Hnil.
      pose proof (lstrip_length line).
      injection E as E. destruct acc; lia.
    - intros r Hr. apply Hsub. now right. }
  apply (Hinv lines None); [discriminate | auto].
Qed.

Lemma repeat_prefix (p l0 rest : str) (k : nat) :
  forallb (fun c => negb (c =? newline)%N) p = true ->
  p ++ rest = l0 ++ repeat newline k ->
  exists l0', l0 = p ++ l0' /\ rest = l0' ++ repeat newline k.
Proof.
  revert l0. induction p as [|a p IH]; intros l0 Hp E; [now exists l0 |].
  cbn [forallb] in Hp. apply andb_true_iff in Hp as [Ha Hp].
  destruct l0 as [|b l0]; cbn [app] in E.
  - destruct k; [discriminate |]. injection E as -> _.
    rewrite N.eqb_refl in Ha. discriminate.
  - injection E as -> E. destruct (IH l0 Hp E) as (l0' & -> & Hrest). now exists l0'.
Qed.

Lemma expandtabs_only_newlines (text : str) (col k : nat) :
  expandtabs_from col text = repeat newline k -> forallb (N.eqb newline) text = true.
Proof.
  revert col k. induction text as [|c text IH]; intros col k E; [reflexivity |].
  cbn [expandtabs_from] in E. cbn [forallb].
  destruct (N.eqb_spec c 9) as [->|_].
  - assert (Hincr : (8 - col mod 8 = S (7 - col mod 8))%nat).
    { pose proof (Nat.mod_upper_bound col 8). lia. }
    rewrite Hincr in E. destruct k; discriminate.
  - assert (Hcons : forall col', c :: expandtabs_from col' text = repeat newline k ->
                                 (newline =? c)%N && forallb (N.eqb newline) text = true).
    { intros col' E'. destruct k as [|k]; [discriminate |]. injection E' as -> E'.
      rewrite N.eqb_refl. now apply IH in E'. }
    destruct ((c =? 10)%N || (c =? 13)%N); now apply Hcons in E.
Qed.

Lemma expandtabs_blank_inv (text : str) (col : nat) (l0 : str) (k : nat) :
  expandtabs_from col text = l0 ++ repeat newline k ->
  forallb isspace l0 = true ->
  forallb (fun c => negb (c =? newline)%N) l0 = true ->
  blank_first_line text = true.
Proof.
  revert col l0. induction text as [|c text IH]; intros col l0 E Hs Hn; [reflexivity |].
  cbn [expandtabs_from] in E. cbn [blank_first_line].
  destruct (N.eqb_spec c newline) as [->|Hc].
  - cbn in E. destruct l0 as [|b l0].
    + destruct k; [discriminate |]. injection E as E.
      now apply expandtabs_only_newlines in E.
    + injection E as <- _. discriminate.
  - destruct (N.eqb_spec c 9) as [->|Htab].
    + apply repeat_prefix in E as (l0' & -> & E); [| now apply forallb_repeat].
      rewrite forallb_app in Hs, Hn.
      apply andb_true_iff in Hs as [_ Hs]. apply andb_true_iff in Hn as [_ Hn].
      now rewrite (IH _ _ E Hs Hn).
    + assert (Hcons : forall col', c :: expandtabs_from col' text = l0 ++ repeat newline k ->
                                   isspace c && blank_first_line text = true).
      { intros col' E'. destruct l0 as [|b l0].
        - destruct k; [discriminate |]. injection E' as -> _. contradiction.
        - injection E' as <- E'. cbn [forallb] in Hs, Hn.
          apply andb_true_iff in Hs as [Hsc Hs]. apply andb_true_iff in Hn as [_ Hn].
          now rewrite Hsc, (IH _ _ E' Hs Hn). }
      destruct ((c =? 10)%N || (c =? 13)%N); now apply Hcons in E.
Qed.

Lemma cleandoc_nil_blank (text : str) : cleandoc text = [] -> blank_first_line text = true.
Proof.
  unfold cleandoc, expandtabs. intros H.
  destruct (split_lines_not_nil (expandtabs_from 0 text)) as (l0 & rest & E).
  rewrite E in H. cbn [tl] in H.
  assert (Hlines : lstrip l0 = [] /\ forall r, In r rest -> r = []).
  { destruct (margin_of rest) as [m|] eqn:Em.
    - exfalso. destruct (margin_of_content _ _ Em) as (r & Hr & Hskip).
      apply Hskip. apply (cleaned_blank_lines _ H). right. now apply in_map.
    - split; [apply (cleaned_blank_lines _ H); now left |].
      intros r Hr. apply (cleaned_blank_lines _ H). now right. }
  destruct Hlines as [Hl0 Hrest].
  apply (expandtabs_blank_inv text 0 l0 (length rest)).
  - rewrite <- (join_split_lines (expandtabs_from 0 text)), E.
    rewrite (all_blank_lines _ Hrest) at 1. apply join_blank_lines.
  - now apply lstrip_nil_whitespace.
  - apply (split_lines_no_newline (expandtabs_from 0 text)). rewrite E. now left.
Qed.

(** C10, as the code has it: the accessor returns the empty string exactly
    for a leading string literal that is empty, or holds whitespace on its
    first line only and nothing but line feeds after it.  For a class or a
    plain function definition with such a literal the visit appends, before
    it descends, the missing-docstring issue and none of the three shape
    issues; with any other leading literal it appends no missing-docstring
    issue.  An [AsyncFunctionDef] has no rule, and nothing is appended for
    it whatever its literal is. *)
Theorem blank_docstring_rule (depth : nat) (lineno : Z) (name : str)
    (pre rest post : list node) (text : str) (self : linter) :
  let body := Expr (Constant (CStr text)) :: rest in
  (get_docstring body = Some [] <-> blank_first_line text = true)
  /\ (blank_first_line text = true ->
      (exists appended,
          visit (S depth) (Def ClassDef lineno name pre body post) self
          = generic_visit depth (Def ClassDef lineno name pre body post)
              (Linter (issues self ++ appended) (loop_depth self)) /\
          filter is_missing_docstring appended = [(lineno, ClassNoDocstring name lineno)] /\
          filter is_docstring_shape appended = [])
      /\ (exists appended,
            visit (S depth) (Def FunctionDef lineno name pre body post) self
            = generic_visit depth (Def FunctionDef lineno name pre body post)
                (Linter (issues self ++ appended) (loop_depth self)) /\
            filter is_missing_docstring appended
            = [(lineno, FunctionNoDocstring name lineno)] /\
            filter is_docstring_shape appended = []))
  /\ (blank_first_line text = false ->
      (exists appended,
          visit (S depth) (Def ClassDef lineno name pre body post) self
          = generic_visit depth (Def ClassDef lineno name pre body post)
              (Linter (issues self ++ appended) (loop_depth self)) /\
          filter is_missing_docstring appended = [])
      /\ (exists appended,
            visit (S depth) (Def FunctionDef lineno name pre body post) self
            = generic_visit depth (Def FunctionDef lineno name pre body post)
                (Linter (issues self ++ appended) (loop_depth self)) /\
            filter is_missing_docstring appended = []))
  /\ visit (S depth) (Def AsyncFunctionDef lineno name pre body post) self
     = generic_visit depth (Def AsyncFunctionDef lineno name pre body post) self.
Proof.
  intros body.
  assert (Hiff : get_docstring body = Some [] <-> blank_first_line text = true).
  { unfold body. cbn [get_docstring]. split.
    - intros [= H]. now apply cleandoc_nil_blank.
    - intros H. now rewrite cleandoc_blank. }
  split; [exact Hiff |]. split; [| split; [| reflexivity]].
  - intros Hblank. apply Hiff in Hblank as Hdoc. split.
    + exists (own_issues (loop_depth self) (Def ClassDef lineno name pre body post)).
      split; [cbn [visit]; now rewrite (visit_ClassDef_own _ _ _ pre body post) |].
      unfold own_issues, docstring_issues. rewrite Hdoc. simpl.
      destruct (re_match CAPWORDS_REGEX name); split; reflexivity.
    + exists (own_issues (loop_depth self) (Def FunctionDef lineno name pre body post)).
      split; [cbn [visit]; now rewrite (visit_FunctionDef_own _ _ _ pre body post) |].
      unfold own_issues, docstring_issues. rewrite Hdoc. simpl.
      destruct (re_match SNAKE_CASE_REGEX name); split; reflexivity.
  - intros Hblank.
    assert (Hdoc : exists c d, get_docstring body = Some (c :: d)).
    { unfold body. cbn [get_docstring]. destruct (cleandoc text) as [|c d] eqn:E; [| eauto].
      apply cleandoc_nil_blank in E. congruence. }
    destruct Hdoc as (c & d & Hdoc). split.
    + exists (own_issues (loop_depth self) (Def ClassDef lineno name pre body post)).
      split; [cbn [visit]; now rewrite (visit_ClassDef_own _ _ _ pre body post) |].
      unfold own_issues, docstring_issues, check_docstring_issues. rewrite Hdoc.
      cbn [no_docstring truthy negb docstring_text]. rewrite !filter_app. each_test.
    + exists (own_issues (loop_depth self) (Def FunctionDef lineno name pre body post)).
      split; [cbn [visit]; now rewrite (visit_FunctionDef_own _ _ _ pre body post) |].
      unfold own_issues, docstring_issues, check_docstring_issues. rewrite Hdoc.
      cbn [no_docstring truthy negb docstring_text]. cbn [filter is_missing_docstring snd].
      rewrite !filter_app. each_test.
Qed.

(** ** Further properties of the visitor *)

(** The state a method leaves, however it ends. *)
Definition state_of (r : completion) : linter :=
  match r with
  | Normal self' => self'
  | Raise _ self' => self'
  end.

(** A method grows the list of issues when every call of it leaves the
    issues it found in place, with more at the end or none. *)
Definition grows (m : method) : Prop :=
  forall self, exists added, issues (state_of (m self)) = issues self ++ added.

(** The line a node carries, for the classes whose rules report on it. *)
Definition node_line (n : node) : option Z :=
  match n with
  | Def _ lineno _ _ _ _ => Some lineno
  | Loop _ lineno _ _ _ => Some lineno
  | Assign lineno _ _ => Some lineno
  | _ => None
  end.

(** The line number a message names in its text. *)
Definition message_line (m : message) : Z :=
  match m with
  | ClassNotCapWords _ lineno | ClassNoDocstring _ lineno
  | FunctionFound _ lineno | FunctionNotSnakeCase _ lineno
  | FunctionNoDocstring _ lineno
  | DocstringTooShort _ lineno _ | DocstringNoCapital _ lineno
  | DocstringNoPunctuation _ lineno
  | SingleLetterVariable _ lineno
  | NestedFor lineno | NestedWhile lineno
  | CommentTooLong lineno _ | ExtraneousComment lineno _
  | CommentLineTooLong lineno _ | CodeLineTooLong lineno _
  | MultipleImports lineno | MultipleFromImports lineno
  | SyntaxErrorAt lineno => lineno
  end.

(** What [SNAKE_CASE_REGEX] accepts, read off character by character. *)
Definition snake_shape (name : str) : bool :=
  match name with
  | c :: rest => lower_or_underscore c && forallb lower_digit_underscore rest
  | [] => false
  end.

Definition is_function_naming (i : issue) : bool :=
  match snd i with FunctionNotSnakeCase _ _ => true | _ => false end.

Definition function_naming_of (n : node) : list issue :=
  match n with
  | Def FunctionDef lineno name _ _ _ =>
      if re_match SNAKE_CASE_REGEX name then []
      else [(lineno, FunctionNotSnakeCase name lineno)]
  | _ => []
  end.

(** *** A visit raises only when the stack runs out *)

Lemma list_max_above (l : list nat) (k : nat) :
  (k < list_max l)%nat -> exists x, In x l /\ (k < x)%nat.
Proof.
  induction l as [|x l IH]; simpl; intros H; [lia |].
  destruct (Nat.lt_ge_cases k x) as [Hx|Hx]; [exists x; auto |].
  destruct IH as (y & Hy & Hk); [lia |]. exists y; auto.
Qed.

Lemma deep_child (n : node) (depth : nat) :
  (S depth < height n)%nat -> exists c, In c (children n) /\ (depth < height c)%nat.
Proof.
  unfold height at 1. rewrite fold_node_children. fold height. intros H.
  destruct (list_max_above (map height (children n)) depth) as (x & Hx & Hk); [lia |].
  apply in_map_iff in Hx as (c & <- & Hc). now exists c.
Qed.

Lemma for_each_overflows (cs : list node) (body : node -> method) :
  (forall c, In c cs -> forall self,
     (exists self', body c self = Normal self') \/
     (exists self', body c self = Raise RecursionError self')) ->
  (exists c, In c cs /\ forall self, exists self', body c self = Raise RecursionError self') ->
  forall self, exists self', for_each cs body self = Raise RecursionError self'.
Proof.
  induction cs as [|c cs IH]; intros Hall (c0 & Hin & Hraise) self; [contradiction |].
  cbn [for_each]. unfold then_.
  destruct (Hall c (or_introl eq_refl) self) as [(s1 & E)|(s1 & E)]; rewrite E; [| eauto].
  destruct Hin as [<-|Hin].
  - destruct (Hraise self) as (s2 & E2). congruence.
  - apply IH; [intros; apply Hall; now right | eauto].
Qed.

Lemma visit_overflows (depth : nat) (n : node) (self : linter) :
  (depth < height n)%nat ->
  exists self', visit depth n self = Raise RecursionError self'.
Proof.
  revert n self. induction depth as [|depth IH]; intros n self Hh; [now exists self |].
  assert (Hgv : forall self0, exists self',
               for_each (children n) (visit depth) self0 = Raise RecursionError self').
  { apply for_each_overflows.
    - intros c _ self0. destruct (Nat.le_gt_cases (height c) depth) as [Hc|Hc].
      + left. eexists. now apply visit_returns.
      + right. now apply IH.
    - destruct (deep_child n depth Hh) as (c & Hin & Hc). exists c. split; [assumption |].
      intros self0. now apply IH. }
  destruct n as [c lineno name pre body post|c lineno head body orelse
                |lineno targets value|value|value|id ctx|cls fields];
    try (cbn [visit]; apply Hgv).
  - destruct c; cbn [visit]; try apply Hgv.
    + rewrite (visit_ClassDef_own _ _ _ pre body post). apply Hgv.
    + rewrite (visit_FunctionDef_own _ _ _ pre body post). apply Hgv.
  - destruct c; cbn [visit]; try apply Hgv.
    + rewrite (visit_For_own _ _ head body orelse).
      match goal with |- context [for_each ?cs ?b ?s] =>
        destruct (Hgv s) as (s' & E); rewrite E end. eauto.
    + rewrite (visit_While_own _ _ head body orelse).
      match goal with |- context [for_each ?cs ?b ?s] =>
        destruct (Hgv s) as (s' & E); rewrite E end. eauto.
  - cbn [visit]. rewrite (visit_Assign_own _ _ _ value). apply Hgv.
Qed.

(** A visit that returned has appended the issues of the tree. *)
Lemma visit_normal_inv (depth : nat) (n : node) (self self' : linter) :
  visit depth n self = Normal self' ->
  (height n <= depth)%nat /\
  self' = Linter (issues self ++ tree_issues n (loop_depth self)) (loop_depth self).
Proof.
  intros H. destruct (Nat.le_gt_cases (height n) depth) as [Hh|Hh].
  - split; [assumption |]. rewrite (visit_returns _ _ _ Hh) in H. congruence.
  - destruct (visit_overflows depth n self Hh) as (s & E). congruence.
Qed.

(** X3: the shape checks read the first and the last character of the
    docstring, and on an empty docstring the first of these reads raises
    [IndexError], after the too-short issue was appended.  No visit ever
    raises [IndexError]: the rules reach the shape checks with a docstring
    that is not empty only. *)
Theorem visit_raises_no_index_error :
  (forall lineno entity_name self,
      _check_docstring_rules [] lineno entity_name self
      = Raise IndexError
          (Linter (issues self ++ [(lineno, DocstringTooShort entity_name lineno 0)])
                  (loop_depth self)))
  /\ (forall depth n self e self',
        visit depth n self = Raise e self' -> e <> IndexError).
Proof.
  split; [reflexivity |].
  intros depth n self e self' H.
  destruct (Nat.le_gt_cases (height n) depth) as [Hh|Hh].
  - rewrite (visit_returns _ _ _ Hh) in H. discriminate.
  - destruct (visit_overflows depth n self Hh) as (s & E).
    rewrite E in H. injection H as <- _. discriminate.
Qed.

(** *** A visit only appends *)

Lemma grows_emits (m : method) (l : list issue) : emits m l -> grows m.
Proof. intros H self. rewrite H. now exists l. Qed.

Lemma grows_raise (e : exn) : grows (raise e).
Proof. intros self. exists []. simpl. now rewrite app_nil_r. Qed.

Lemma grows_then (a b : method) : grows a -> grows b -> grows (a ;; b).
Proof.
  intros Ha Hb self. unfold then_. destruct (Ha self) as (la & Ea).
  destruct (a self) as [s1|e s1]; simpl in Ea; [| now exists la].
  destruct (Hb s1) as (lb & Eb). exists (la ++ lb). now rewrite Eb, Ea, app_assoc.
Qed.

Lemma grows_when (b : bool) (m : method) : grows m -> grows (when b m).
Proof. intros H. destruct b; simpl; [assumption | exact (grows_emits _ _ emits_pass)]. Qed.

Lemma grows_for_each {A : Type} (xs : list A) (body : A -> method) :
  (forall x, grows (body x)) -> grows (for_each xs body).
Proof.
  intros H. induction xs as [|x xs IH]; simpl.
  - exact (grows_emits _ _ emits_pass).
  - now apply grows_then.
Qed.

Lemma grows_append (i : issue) : grows (append i).
Proof. exact (grows_emits _ _ (emits_append i)). Qed.

Lemma grows_check_docstring_rules (d : str) (lineno : Z) (e : entity) :
  grows (_check_docstring_rules d lineno e).
Proof.
  unfold _check_docstring_rules.
  apply grows_then; [apply grows_when, grows_append |].
  apply grows_then.
  - destruct d; [apply grows_raise | apply grows_when, grows_append].
  - destruct (rev d); [apply grows_raise | apply grows_when, grows_append].
Qed.

Lemma grows_docstring (body : list node) (lineno : Z) (e : entity) (m : message) :
  grows (let docstring := get_docstring body in
         if no_docstring docstring then append (lineno, m)
         else _check_docstring_rules (docstring_text docstring) lineno e).
Proof.
  simpl. destruct (no_docstring (get_docstring body)).
  - apply grows_append.
  - apply grows_check_docstring_rules.
Qed.

Lemma grows_enter_loop : grows enter_loop.
Proof. intros self. exists []. simpl. now rewrite app_nil_r. Qed.

Lemma grows_leave_loop : grows leave_loop.
Proof. intros self. exists []. simpl. now rewrite app_nil_r. Qed.

Lemma grows_when_nested (i : issue) : grows (when_nested i).
Proof.
  intros self. unfold when_nested. destruct (1 <? loop_depth self).
  - now exists [i].
  - exists []. simpl. now rewrite app_nil_r.
Qed.

Lemma visit_grows (depth : nat) (n : node) : grows (visit depth n).
Proof.
  revert n. induction depth as [|depth IH]; intros n; [apply grows_raise |].
  assert (Hgv : grows (for_each (children n) (visit depth)))
    by now apply grows_for_each.
  destruct n as [c lineno name pre body post|c lineno head body orelse
                |lineno targets value|value|value|id ctx|cls fields];
    try exact Hgv.
  - destruct c; cbn [visit]; try exact Hgv.
    + apply grows_then; [apply grows_when, grows_append |].
      apply grows_then; [apply grows_docstring | exact Hgv].
    + apply grows_then; [apply grows_append |].
      apply grows_then; [apply grows_when, grows_append |].
      apply grows_then; [apply grows_docstring | exact Hgv].
  - destruct c; cbn [visit]; try exact Hgv.
    + apply grows_then; [apply grows_enter_loop |].
      apply grows_then; [apply grows_when_nested |].
      apply grows_then; [exact Hgv | apply grows_leave_loop].
    + apply grows_then; [apply grows_enter_loop |].
      apply grows_then; [apply grows_when_nested |].
      apply grows_then; [exact Hgv | apply grows_leave_loop].
  - cbn [visit]. unfold visit_Assign. apply grows_then; [| exact Hgv].
    exact (grows_emits _ _ (emits_single_letter _ _)).
Qed.

(** X4: a visit only appends to the list of issues.  Whatever the state
    it starts from, and whether it returns or raises, the issues found
    before are still there, in their order, at the head of the list. *)
Theorem visit_appends_only (depth : nat) (n : node) (self : linter) :
  exists added,
    issues (state_of (visit depth n self)) = issues self ++ added.
Proof. apply visit_grows. Qed.

(** *** The function-name pattern *)

Lemma lang_snake (s : str) : lang SNAKE_CASE_REGEX s <-> snake_shape s = true.
Proof.
  unfold SNAKE_CASE_REGEX, snake_shape. split.
  - intros H. apply lang_seq_inv in H as (s1 & s2 & -> & H1 & H2).
    apply lang_class_inv in H1 as (c & -> & Hc). simpl. rewrite Hc. simpl.
    now apply lang_star_class.
  - destruct s as [|c rest]; [discriminate |]. intros H.
    apply andb_true_iff in H as [Hc Hrest].
    change (c :: rest) with ([c] ++ rest).
    constructor; [now constructor | now apply lang_star_class].
Qed.

Lemma fullmatch_snake (s : str) : fullmatch SNAKE_CASE_REGEX s = snake_shape s.
Proof. apply eq_true_iff_eq. rewrite fullmatch_lang. apply lang_snake. Qed.

Lemma own_function_naming (d : Z) (n : node) :
  filter is_function_naming (own_issues d n) = function_naming_of n.
Proof.
  destruct n as [[] lineno name ? ? ?|[] ? ? ? ?|? ? ?|?|?|? ?|? ?];
    unfold own_issues, docstring_issues, check_docstring_issues, function_naming_of;
    simpl; try destruct (re_match SNAKE_CASE_REGEX name); simpl; each_test.
  apply filter_none. intros i Hi. apply single_letter_issues_kind in Hi.
  destruct i as [? []]; cbv in Hi |- *; congruence.
Qed.

(** X1: a function name, which holds no line feed, matches the pattern of
    the code exactly when it starts with a lower-case ASCII letter or an
    underscore and goes on with lower-case ASCII letters, digits and
    underscores; a name of one such character matches.  The naming issues
    of a visit are, for each plain function definition in pre-order, one
    issue at its line when its name does not match, none when it does. *)
Theorem function_naming_rule :
  (forall name, ~ In newline name ->
      re_match SNAKE_CASE_REGEX name = snake_shape name)
  /\ (forall depth tree,
        (height tree <= depth)%nat ->
        exists self',
          visit depth tree new_linter = Normal self' /\
          filter is_function_naming (issues self')
          = flat_map function_naming_of (subnodes tree)).
Proof.
  split.
  - intros name Hnl. unfold re_match. rewrite fullmatch_snake.
    destruct (rev name) as [|c s'] eqn:Er; [apply orb_false_r |].
    destruct (N.eqb_spec c newline) as [->|_]; [| apply orb_false_r].
    exfalso. apply Hnl. apply in_rev. rewrite Er. now left.
  - intros depth tree. apply visit_filtered. exact own_function_naming.
Qed.

(** *** The shape checks of a docstring *)

Lemma rev_last {A : Type} (l : list A) (x : A) :
  l <> [] -> exists r, rev l = last l x :: r.
Proof.
  intros H. exists (rev (removelast l)).
  assert (E : rev l = rev (removelast l ++ [last l x]))
    by (f_equal; exact (app_removelast_last x H)).
  rewrite E, rev_app_distr. reflexivity.
Qed.

Lemma docstring_shape_own (lineno : Z) (e : entity) (first : char) (others : str) :
  filter (fun i => is_missing_docstring i || is_docstring_shape i)
    (check_docstring_issues (first :: others) lineno e)
  = (if len (first :: others) <? 10
     then [(lineno, DocstringTooShort e lineno (len (first :: others)))] else [])
    ++ (if isupper_char first then [] else [(lineno, DocstringNoCapital e lineno)])
    ++ (if terminal_punctuation (last (first :: others) first) then []
        else [(lineno, DocstringNoPunctuation e lineno)]).
Proof.
  unfold check_docstring_issues.
  destruct (rev_last (first :: others) first) as (r & Er); [discriminate |].
  rewrite Er.
  destruct (len (first :: others) <? 10), (isupper_char first),
    (terminal_punctuation (last (first :: others) first)); reflexivity.
Qed.

(** X2: for a class or a plain function definition whose leading string
    literal is cleaned to a docstring that is not empty, the visit appends
    no missing-docstring issue and runs the three shape checks, each on its
    own: too short when the cleaned docstring has fewer than 10
    characters, no capital when its first character is not upper-case, no
    punctuation when its last character is none of [.], [!] and [?].  The
    issues that fire are appended in that order, and none raises. *)
Theorem docstring_shape_rule (depth : nat) (lineno : Z) (name : str)
    (pre rest post : list node) (text : str) (first : char) (others : str)
    (self : linter) :
  cleandoc text = first :: others ->
  let body := Expr (Constant (CStr text)) :: rest in
  let docstring := first :: others in
  let shape := fun e : entity =>
    (if len docstring <? 10
     then [(lineno, DocstringTooShort e lineno (len docstring))] else [])
    ++ (if isupper_char first then [] else [(lineno, DocstringNoCapital e lineno)])
    ++ (if terminal_punctuation (last docstring first) then []
        else [(lineno, DocstringNoPunctuation e lineno)]) in
  (exists appended,
      visit (S depth) (Def ClassDef lineno name pre body post) self
      = generic_visit depth (Def ClassDef lineno name pre body post)
          (Linter (issues self ++ appended) (loop_depth self)) /\
      filter (fun i => is_missing_docstring i || is_docstring_shape i) appended
      = shape (EClass name))
  /\ (exists appended,
        visit (S depth) (Def FunctionDef lineno name pre body post) self
        = generic_visit depth (Def FunctionDef lineno name pre body post)
            (Linter (issues self ++ appended) (loop_depth self)) /\
        filter (fun i => is_missing_docstring i || is_docstring_shape i) appended
        = shape (EFunction name)).
Proof.
  intros Hclean body docstring shape.
  assert (Hdoc : get_docstring body = Some (first :: others))
    by (unfold body; cbn [get_docstring]; now rewrite Hclean).
  split.
  - exists (own_issues (loop_depth self) (Def ClassDef lineno name pre body post)).
    split; [cbn [visit]; now rewrite (visit_ClassDef_own _ _ _ pre body post) |].
    unfold own_issues, docstring_issues. rewrite Hdoc.
    cbn [no_docstring truthy negb docstring_text]. rewrite filter_app.
    rewrite docstring_shape_own.
    destruct (re_match CAPWORDS_REGEX name); reflexivity.
  - exists (own_issues (loop_depth self) (Def FunctionDef lineno name pre body post)).
    split; [cbn [visit]; now rewrite (visit_FunctionDef_own _ _ _ pre body post) |].
    unfold own_issues, docstring_issues. rewrite Hdoc.
    cbn [no_docstring truthy negb docstring_text].
    change ((lineno, FunctionFound name lineno)
            :: (if re_match SNAKE_CASE_REGEX name then []
                else [(lineno, FunctionNotSnakeCase name lineno)])
            ++ check_docstring_issues (first :: others) lineno (EFunction name))
      with (((lineno, FunctionFound name lineno)
             :: (if re_match SNAKE_CASE_REGEX name then []
                 else [(lineno, FunctionNotSnakeCase name lineno)]))
            ++ check_docstring_issues (first :: others) lineno (EFunction name)).
    rewrite filter_app, docstring_shape_own.
    destruct (re_match SNAKE_CASE_REGEX name); reflexivity.
Qed.

(** *** The lines of the issues *)

Lemma single_letter_issues_lines (lineno : Z) (targets : list node) (i : issue) :
  In i (single_letter_issues lineno targets) ->
  message_line (snd i) = fst i /\ fst i = lineno.
Proof.
  unfold single_letter_issues. rewrite in_flat_map. intros (t & _ & Hi).
  destruct t; try contradiction.
  destruct ((len id =? 1) && isalpha id); [| contradiction].
  destruct Hi as [<-|[]]. now split.
Qed.

Lemma own_issues_lines (d : Z) (n : node) (i : issue) :
  In i (own_issues d n) ->
  message_line (snd i) = fst i /\ node_line n = Some (fst i).
Proof.
  destruct n as [[] lineno name ? ? ?|[] lineno ? ? ?|lineno ? ?|?|?|? ?|? ?];
    unfold own_issues, docstring_issues, check_docstring_issues; simpl;
    try contradiction;
    try (intros H; apply single_letter_issues_lines in H as [H1 H2];
         split; [assumption | now rewrite H2]);
    repeat match goal with
           | |- context [if ?b then _ else _] => destruct b
           | |- context [match ?x with [] => _ | _ :: _ => _ end] => destruct x
           end;
    simpl; intros H;
    repeat match goal with
           | H : _ \/ _ |- _ => destruct H as [H|H]
           | H : False |- _ => contradiction
           | H : (_, _) = i |- _ => subst i; simpl; now split
           end.
Qed.

Lemma tree_issues_lines (n : node) (d : Z) (i : issue) :
  In i (tree_issues n d) ->
  message_line (snd i) = fst i /\
  exists m, In m (subnodes n) /\ node_line m = Some (fst i).
Proof.
  revert d. induction n as [n IH] using node_children_ind. intros d.
  rewrite tree_issues_children, subnodes_children, in_app_iff.
  intros [H|H].
  - apply own_issues_lines in H as [H1 H2]. split; [assumption |].
    exists n. split; [now left | assumption].
  - apply in_flat_map in H as (c & Hc & H).
    destruct (IH c Hc _ H) as (H1 & m & Hm & Hline). split; [assumption |].
    exists m. split; [| assumption]. right. apply in_flat_map. eauto.
Qed.

(** X10: every issue of the tree rules is on the line of a node of the
    tree that a rule reports on: a class or function definition, a loop or
    an assignment.  No rule reports on any other line. *)
Theorem tree_issues_on_node_lines (depth : nat) (tree : node) (self' : linter) :
  visit depth tree new_linter = Normal self' ->
  forall i, In i (issues self') ->
            exists m, In m (subnodes tree) /\ node_line m = Some (fst i).
Proof.
  intros H i Hi. apply visit_normal_inv in H as [_ ->].
  cbn [issues new_linter app loop_depth] in Hi.
  now apply tree_issues_lines in Hi.
Qed.

Lemma comment_issue_lines (tok : token) (i : issue) :
  In i (comment_issue tok) ->
  message_line (snd i) = fst i /\ fst i = start_line tok /\ type tok = COMMENT.
Proof.
  unfold comment_issue. destruct (type tok); [| contradiction].
  intros [<-|[]]. cbn [fst snd].
  destruct (72 <? len (strip (token_string tok))); now repeat split.
Qed.

Lemma line_length_issue_message (n : Z) (l : str) (i : issue) :
  In i (line_length_issue (n, l)) -> message_line (snd i) = fst i.
Proof.
  unfold line_length_issue.
  repeat match goal with |- context [if ?b then _ else _] => destruct b end;
    simpl; intros H; try contradiction; destruct H as [<-|[]]; reflexivity.
Qed.

Lemma import_issue_line (n : Z) (l : str) (i : issue) :
  In i (import_issue (n, l)) -> fst i = n /\ message_line (snd i) = fst i.
Proof.
  unfold import_issue.
  repeat match goal with
         | |- context [if ?b then _ else _] => destruct b
         | |- context [match ?x with Some _ => _ | None => _ end] => destruct x
         end;
    simpl; intros H; try contradiction; destruct H as [<-|[]]; now split.
Qed.

(** X5: in every report that the engine returns, each issue names in its
    message the line number it carries: the line of the pair and the line
    in the text never differ, for the tree rules, the three scans and the
    syntax error alike. *)
Theorem report_lines_agree (recursion_limit : nat) (file : option source_file)
    (report : list issue) :
  run_snark_linter recursion_limit file = Returned report ->
  Forall (fun i => message_line (snd i) = fst i) report.
Proof.
  unfold run_snark_linter. destruct file as [f|]; [| discriminate].
  destruct (source_code <- text f ;;; ast_parse f) as [tree|e].
  - destruct (visit recursion_limit tree new_linter) as [self'|e self'] eqn:Hv;
      [| discriminate].
    unfold find_comment_issues, find_line_length_issues, find_import_issues.
    destruct (snd (tokens f)); [discriminate |]. cbn [bind].
    destruct (text f) as [content|e]; [| discriminate]. cbn [bind].
    intros [= <-].
    eapply Permutation_Forall; [apply sort_by_line_perm |].
    apply visit_normal_inv in Hv as [_ ->]. cbn [issues new_linter app loop_depth].
    repeat (apply Forall_app; split); apply Forall_forall; intros i Hi.
    + now apply tree_issues_lines in Hi.
    + apply in_flat_map in Hi as (tok & _ & Hi). now apply comment_issue_lines in Hi.
    + apply in_flat_map in Hi as ([n l] & _ & Hi). now apply line_length_issue_message in Hi.
    + apply in_flat_map in Hi as ([n l] & _ & Hi). now apply import_issue_line in Hi.
  - destruct e; try discriminate. intros [= <-]. now repeat constructor.
Qed.

(** ** Further properties of the scans *)

Definition is_comment_token (tok : token) : bool :=
  match type tok with COMMENT => true | OTHER_TOKEN => false end.

(** The issue the comment scan gives for a comment token. *)
Definition comment_message (tok : token) : message :=
  let comment_text := strip (token_string tok) in
  if 72 <? len comment_text
  then CommentTooLong (start_line tok) (len comment_text)
  else ExtraneousComment (start_line tok) comment_text.

(** *** Prefixes and occurrences *)

Lemma startswith_iff (s p : str) : startswith s p = true <-> exists t, s = p ++ t.
Proof.
  revert s. induction p as [|a p IH]; intros s.
  - split; [intros _; now exists s | intros _; now destruct s].
  - destruct s as [|b s]; [split; [discriminate | intros (t & E); discriminate] |].
    cbn [startswith]. rewrite andb_true_iff, N.eqb_eq, IH. split.
    + intros (-> & t & ->). now exists t.
    + intros (t & E). injection E as -> ->. split; [reflexivity | now exists t].
Qed.

Lemma contains_iff (s sub : str) :
  contains s sub = true <-> exists before after, s = before ++ sub ++ after.
Proof.
  induction s as [|a s IH]; cbn [contains]; rewrite orb_true_iff, startswith_iff.
  - split.
    + intros [(t & E)|H]; [now exists [], t | discriminate].
    + intros (before & after & E). left. symmetry in E.
      apply app_eq_nil in E as [-> E]. now exists after.
  - rewrite IH. split.
    + intros [(t & E)|(before & after & E)]; [now exists [], t |].
      exists (a :: before), after. now rewrite E.
    + intros ([|b before] & after & E); [left; now exists after |].
      right. injection E as -> E. now exists before, after.
Qed.

Lemma contains_char (s : str) (c : char) : contains s [c] = true <-> In c s.
Proof.
  rewrite contains_iff. split.
  - intros (before & after & ->). apply in_or_app. right. now left.
  - intros H. apply in_split in H as (before & after & ->). now exists before, after.
Qed.

Lemma skipn_prefix {A : Type} (p t : list A) : skipn (length p) (p ++ t) = t.
Proof. induction p as [|a p IH]; [reflexivity | exact IH]. Qed.

Lemma after_first_here (s sep : str) :
  startswith s sep = true ->
  exists t, s = sep ++ t /\ skipn (length sep) s = t.
Proof.
  intros H. apply startswith_iff in H as (t & ->). exists t.
  split; [reflexivity | apply skipn_prefix].
Qed.

(** [after_first] cuts at the first occurrence of the separator. *)
Lemma after_first_some (s sep t : str) :
  after_first s sep = Some t ->
  exists before,
    s = before ++ sep ++ t /\
    forall before' after', s = before' ++ sep ++ after' ->
                           (length before <= length before')%nat.
Proof.
  revert t. induction s as [|a s IH]; intros t; cbn [after_first].
  - destruct (startswith [] sep) eqn:Es; [| discriminate].
    apply after_first_here in Es as (t' & E & ->). intros [= <-].
    exists []. split; [exact E | intros; simpl; lia].
  - destruct (startswith (a :: s) sep) eqn:Es.
    + apply after_first_here in Es as (t' & E & ->). intros [= <-].
      exists []. split; [exact E | intros; simpl; lia].
    + intros H. destruct (IH t H) as (before & E & Hmin).
      exists (a :: before). split; [now rewrite E |].
      intros [|b before'] after' E'.
      * assert (Hs : startswith (a :: s) sep = true)
          by (apply startswith_iff; now exists after').
        congruence.
      * injection E' as _ E'. specialize (Hmin _ _ E'). simpl. lia.
Qed.

Lemma after_first_found (s sep : str) :
  contains s sep = true -> exists t, after_first s sep = Some t.
Proof.
  induction s as [|a s IH]; cbn [contains after_first]; intros H.
  - rewrite orb_false_r in H. rewrite H. eauto.
  - destruct (startswith (a :: s) sep); [eauto | now apply IH].
Qed.

Lemma app_same_length {A : Type} (a b x y : list A) :
  length a = length b -> a ++ x = b ++ y -> a = b /\ x = y.
Proof.
  revert b. induction a as [|c a IH]; intros [|d b] Hlen E; try discriminate.
  - now split.
  - injection E as -> E. injection Hlen as Hlen.
    destruct (IH b Hlen E) as [-> ->]. now split.
Qed.

(** *** The numbered lines *)

Lemma enumerate_until {A : Type} (start : Z) (xs : list A) (n : Z) (x : A) :
  In (n, x) (enumerate start xs) -> n < start + Z.of_nat (length xs).
Proof.
  revert start. induction xs as [|y xs IH]; simpl; intros start H; [contradiction |].
  destruct H as [H|H]; [injection H as <- _; lia |].
  apply IH in H. lia.
Qed.

Lemma per_line_at_most_one (per_line : Z * str -> list issue) :
  (forall n l i, In i (per_line (n, l)) -> fst i = n) ->
  (forall n l, (length (per_line (n, l)) <= 1)%nat) ->
  forall lines start n,
    (length (filter (on_line n) (flat_map per_line (enumerate start lines))) <= 1)%nat.
Proof.
  intros Hline Hone lines. induction lines as [|l lines IH]; intros start n; [simpl; lia |].
  cbn [enumerate flat_map]. rewrite filter_app, length_app.
  destruct (Z.eq_dec n start) as [->|Hn].
  - rewrite (filter_none _ (flat_map _ _)).
    + pose proof (Hone start l). pose proof (filter_length_le (on_line start) (per_line (start, l))).
      simpl. lia.
    + intros i Hi. apply in_flat_map in Hi as ([m l'] & Hin & Hi).
      apply enumerate_from in Hin. apply Hline in Hi.
      unfold on_line. destruct (Z.eqb_spec (fst i) start); [lia | reflexivity].
  - rewrite (filter_none _ (per_line _)).
    + specialize (IH (start + 1) n). simpl. lia.
    + intros i Hi. apply Hline in Hi.
      unfold on_line. destruct (Z.eqb_spec (fst i) n); [lia | reflexivity].
Qed.

Lemma per_line_within (per_line : Z * str -> list issue) (lines : list str) (i : issue) :
  (forall n l i, In i (per_line (n, l)) -> fst i = n) ->
  In i (flat_map per_line (enumerate 1 lines)) ->
  1 <= fst i <= Z.of_nat (length lines).
Proof.
  intros Hline Hi. apply in_flat_map in Hi as ([n l] & Hin & Hi).
  apply Hline in Hi. pose proof (enumerate_from _ _ _ _ Hin).
  pose proof (enumerate_until _ _ _ _ Hin). lia.
Qed.

Lemma line_length_issue_one (n : Z) (l : str) :
  (length (line_length_issue (n, l)) <= 1)%nat.
Proof.
  unfold line_length_issue.
  repeat match goal with |- context [if ?b then _ else _] => destruct b end; simpl; lia.
Qed.

Lemma line_import_first (n : Z) (l : str) (i : issue) :
  In i (import_issue (n, l)) -> fst i = n.
Proof. intros H. now apply import_issue_line in H. Qed.

Lemma import_issue_one (n : Z) (l : str) : (length (import_issue (n, l)) <= 1)%nat.
Proof.
  unfold import_issue.
  repeat match goal with
         | |- context [if ?b then _ else _] => destruct b
         | |- context [match ?x with Some _ => _ | None => _ end] => destruct x
         end; simpl; lia.
Qed.

(** X6: the two line scans report inside the file only.  Every issue of
    the length scan and of the import scan is on a line between 1 and the
    number of physical lines, each scan gives at most one issue for a
    line, and the length scan gives none for a line of whitespace only,
    however long the line is. *)
Theorem line_scans_within_file (f : source_file) (content : str) :
  text f = Returned content ->
  exists length_issues import_issues,
    find_line_length_issues (Some f) = Returned length_issues /\
    find_import_issues (Some f) = Returned import_issues /\
    (forall i, In i (length_issues ++ import_issues) ->
               1 <= fst i <= Z.of_nat (length (file_lines content))) /\
    (forall n, (length (filter (on_line n) length_issues) <= 1)%nat /\
               (length (filter (on_line n) import_issues) <= 1)%nat) /\
    (forall k line,
        nth_error (file_lines content) k = Some line ->
        truthy (strip (rstrip_newline line)) = false ->
        filter (on_line (1 + Z.of_nat k)) length_issues = []).
Proof.
  intros Htext. unfold find_line_length_issues, find_import_issues.
  rewrite Htext. cbn [bind]. do 2 eexists. repeat split.
  - apply in_app_or in H as [H|H];
      [apply (per_line_within _ _ _ line_length_issue_line) in H
      |apply (per_line_within _ _ _ line_import_first) in H]; lia.
  - apply in_app_or in H as [H|H];
      [apply (per_line_within _ _ _ line_length_issue_line) in H
      |apply (per_line_within _ _ _ line_import_first) in H]; lia.
  - apply per_line_at_most_one;
      [exact line_length_issue_line | exact line_length_issue_one].
  - apply per_line_at_most_one; [exact line_import_first | exact import_issue_one].
  - intros k line Hk Hblank.
    rewrite (per_line_on_line _ line_length_issue_line _ _ _ _ Hk).
    unfold line_length_issue. now rewrite Hblank.
Qed.

(** X7: the import scan looks at each line stripped of its surrounding
    whitespace.  A line that starts with [import ] is reported, as
    multiple imports, exactly when a comma follows the keyword.  Failing
    that, a line that starts with [from ] and holds [ import ] is
    reported, with the message of the second form, exactly when a comma
    follows the first [ import ] of the line; a comma before it does not
    count.  Any other line is not reported. *)
Theorem import_rule (f : source_file) (content : str) (k : nat) (line : str) :
  text f = Returned content ->
  nth_error (file_lines content) k = Some line ->
  let stripped := strip line in
  let line_no := 1 + Z.of_nat k in
  exists import_issues,
    find_import_issues (Some f) = Returned import_issues /\
    (forall names,
        stripped = lit "import " ++ names ->
        filter (on_line line_no) import_issues
        = if contains names (lit ",") then [(line_no, MultipleImports line_no)] else [])
    /\ (forall before names,
          startswith stripped (lit "import ") = false ->
          startswith stripped (lit "from ") = true ->
          stripped = before ++ lit " import " ++ names ->
          (forall before' names', stripped = before' ++ lit " import " ++ names' ->
                                  (length before <= length before')%nat) ->
          filter (on_line line_no) import_issues
          = if contains names (lit ",")
            then [(line_no, MultipleFromImports line_no)] else [])
    /\ (startswith stripped (lit "import ") = false ->
        startswith stripped (lit "from ") = false \/
        contains stripped (lit " import ") = false ->
        filter (on_line line_no) import_issues = [])
    /\ (forall s, contains s (lit ",") = true <-> In (chr ",") s).
Proof.
  intros Htext Hk. cbv zeta.
  eexists. split; [unfold find_import_issues; rewrite Htext; reflexivity |].
  rewrite (per_line_on_line _ line_import_first _ _ _ _ Hk).
  unfold import_issue. repeat split.
  - intros names E. rewrite E.
    assert (Hs : startswith (lit "import " ++ names) (lit "import ") = true)
      by (apply startswith_iff; now exists names).
    rewrite Hs. now rewrite skipn_prefix.
  - intros before names Himport Hfrom E Hmin. rewrite Himport, Hfrom.
    assert (Hc : contains (strip line) (lit " import ") = true)
      by (apply contains_iff; now exists before, names).
    rewrite Hc. cbn [andb].
    destruct (after_first_found _ _ Hc) as (t & Ht). rewrite Ht.
    destruct (after_first_some _ _ _ Ht) as (before0 & E0 & Hmin0).
    assert (Hlen : length before0 = length before).
    { pose proof (Hmin0 _ _ E). pose proof (Hmin _ _ E0). lia. }
    rewrite E in E0. symmetry in E0.
    apply (app_same_length _ _ _ _ Hlen) in E0 as [_ E0].
    apply app_inv_head in E0. now subst t.
  - intros Himport Hother. rewrite Himport.
    destruct Hother as [H|H]; rewrite H; [reflexivity | now rewrite andb_false_r].
  - apply contains_char.
  - apply contains_char.
Qed.

(** X8: when the tokenizer does not fail, the comment scan gives exactly
    one issue for each comment token and none for any other token, in the
    order of the tokens: the issue is on the line where the token starts,
    too long when the text of the comment, stripped, has more than 72
    characters, and extraneous, with that stripped text, otherwise.  No
    comment goes unreported. *)
Theorem comment_scan_rule (f : source_file) :
  snd (tokens f) = None ->
  exists comment_issues,
    find_comment_issues (Some f) = Returned comment_issues /\
    Forall2 (fun tok i => i = (start_line tok, comment_message tok))
      (filter is_comment_token (fst (tokens f))) comment_issues /\
    length comment_issues = length (filter is_comment_token (fst (tokens f))).
Proof.
  intros Htok. unfold find_comment_issues. rewrite Htok.
  eexists. split; [reflexivity |].
  assert (H : Forall2 (fun tok i => i = (start_line tok, comment_message tok))
                (filter is_comment_token (fst (tokens f)))
                (flat_map comment_issue (fst (tokens f)))).
  { induction (fst (tokens f)) as [|tok toks IH]; [constructor |].
    cbn [filter flat_map]. unfold is_comment_token, comment_issue at 1, comment_message.
    destruct (type tok); [| exact IH].
    cbn [app]. constructor; [| exact IH].
    now destruct (72 <? len (strip (token_string tok))). }
  split; [exact H |]. symmetry. exact (Forall2_length H).
Qed.

(** ** The command line

    [main], after [argparse] has read the arguments: [json] is the flag
    [--json] and [filepath] the optional path.  The files of the system
    are given by [files].

    A call of [print] can raise: [UnicodeEncodeError] when the encoding of
    the standard output has no code for a character of the text,
    [OSError] when the output is closed.  [print_raises n x] is what the
    call number [n] of the process raises, counted from 0, when it is
    given the text [x]; [None] when it returns.  Of a process we keep the
    texts of the calls of [print] that returned, in their order, and the
    way [main] ends.  The text [json.dumps] builds for the issues, whose
    values are integers and strings, and the text of an exception that the
    library raised are left open. *)

Variable json_dumps : list (Z * str) -> str.
Variable library_exception_text : exn -> str.
Variable print_raises : nat -> str -> option exn.

(** [main] returns, or leaves through [sys.exit], or is left by an
    exception that nothing catches. *)
Inductive ending : Type :=
| Returns
| Exits (status : Z)
| Escapes (e : exn).

Record process : Type := Process { stdout : list str; ends : ending }.

Definition usage_line : str :=
  lit "Usage: python snark_linter.py [--json] path/to/your_file.py".

Definition no_issues_line : str :=
  lit "No comedic issues found. Your code is evidently too normal.".

(** [f"{file_path}:{line_num}: {message}"] *)
Definition text_line (file_path : str) (i : issue) : str :=
  file_path ++ lit ":" ++ of_Z (fst i) ++ lit ": " ++ render (snd i).

(** [str(e)] for what the engine raised: for a path that does not exist
    it raises [FileNotFoundError] with a message of its own, and anything
    else comes from the library. *)
Definition exception_text (file_path : str) (file : option source_file)
    (e : exn) : str :=
  match file with
  | None => lit "File not found: " ++ file_path
  | Some _ => library_exception_text e
  end.

(** The texts that the [try] block gives to [print] for a report, one to
    a call. *)
Definition report_lines (json : bool) (file_path : str) (found : list issue)
    : list str :=
  match found with
  | [] => [if json then lit "[]" else no_issues_line]
  | _ :: _ =>
      if json then [json_dumps (map render_issue found)]
      else map (text_line file_path) found
  end.

(** The calls of [print] for [lines], from call [n] on, up to the first
    that raises: the texts printed, and what was raised. *)
Fixpoint print_each (n : nat) (lines : list str) : list str * option exn :=
  match lines with
  | [] => ([], None)
  | x :: rest =>
      match print_raises n x with
      | Some e => ([], Some e)
      | None => let (out, raised) := print_each (S n) rest in (x :: out, raised)
      end
  end.

(** The [except Exception] clause, entered at call [n] of [print] after
    [out] was printed, with [text] for [str(e)]: its own [print] is not in
    a [try]. *)
Definition handler (out : list str) (n : nat) (text : str) : process :=
  let line := lit "Error analyzing file: " ++ text in
  match print_raises n line with
  | None => Process (out ++ [line]) (Exits 1)
  | Some e => Process out (Escapes e)
  end.

(** [print(usage); sys.exit(1)], before the [try]. *)
Definition usage : process :=
  match print_raises 0 usage_line with
  | None => Process [usage_line] (Exits 1)
  | Some e => Process [] (Escapes e)
  end.

Definition main (files : str -> option source_file) (recursion_limit : nat)
    (json : bool) (filepath : option str) : process :=
  match filepath with
  | None => usage
  | Some file_path =>
      if negb (truthy file_path) then usage
      else
        match run_snark_linter recursion_limit (files file_path) with
        | Returned found =>
            match print_each 0 (report_lines json file_path found) with
            | (out, None) => Process out Returns
            | (out, Some e) =>
                handler out (S (length out)) (library_exception_text e)
            end
        | Raised e =>
            handler [] 0 (exception_text file_path (files file_path) e)
        end
  end.

Lemma run_returned_sorted (recursion_limit : nat) (file : option source_file)
    (report : list issue) :
  run_snark_linter recursion_limit file = Returned report ->
  StronglySorted line_le report.
Proof.
  unfold run_snark_linter. destruct file as [f|]; [| discriminate].
  destruct (source_code <- text f ;;; ast_parse f) as [tree|e].
  - destruct (visit recursion_limit tree new_linter); [| discriminate].
    destruct (find_comment_issues (Some f)); [| discriminate].
    destruct (find_line_length_issues (Some f)); [| discriminate].
    destruct (find_import_issues (Some f)); [| discriminate].
    cbn [bind]. intros [= <-]. apply sort_by_line_sorted.
  - destruct e; try discriminate. intros [= <-]. repeat constructor.
Qed.

Lemma startswith_prefix (p t : str) : startswith (p ++ t) p = true.
Proof. apply startswith_iff. now exists t. Qed.

(** Every call returns: every text is printed. *)
Lemma print_each_all (lines : list str) (n : nat) :
  (forall k x, nth_error lines k = Some x -> print_raises (n + k) x = None) ->
  print_each n lines = (lines, None).
Proof.
  revert n. induction lines as [|x rest IH]; intros n H; [reflexivity |].
  cbn [print_each]. pose proof (H 0%nat x eq_refl) as H0.
  rewrite Nat.add_0_r in H0. rewrite H0.
  rewrite IH; [reflexivity |].
  intros k y Hk. rewrite Nat.add_succ_l, <- Nat.add_succ_r. now apply H.
Qed.


(** The first call that raises, after [k] that returned, ends the
    printing: the first [k] texts are printed. *)
Lemma print_each_first (lines : list str) (n k : nat) (x : str) (e : exn) :
  nth_error lines k = Some x ->
  print_raises (n + k) x = Some e ->
  (forall j y, (j < k)%nat -> nth_error lines j = Some y ->
               print_raises (n + j) y = None) ->
  print_each n lines = (firstn k lines, Some e).
Proof.
  revert n k. induction lines as [|y rest IH]; intros n k Hk He Hbefore.
  - now destruct k.
  - destruct k as [|k].
    + injection Hk as ->. cbn [print_each firstn].
      rewrite Nat.add_0_r in He. now rewrite He.
    + cbn [print_each firstn].
      pose proof (Hbefore 0%nat y (Nat.lt_0_succ k) eq_refl) as H0.
      rewrite Nat.add_0_r in H0. rewrite H0.
      rewrite (IH (S n) k); [reflexivity | exact Hk | |].
      * now rewrite Nat.add_succ_l, <- Nat.add_succ_r.
      * intros j z Hj Hz. rewrite Nat.add_succ_l, <- Nat.add_succ_r.
        apply Hbefore; [lia | exact Hz].
Qed.



(** X12: without [--json], [main] prints the issues of the report one to
    a line, in the order of the report, which is by line number,
    non-decreasing: each line starts with the path, a colon, the line
    number of its issue, a colon and a space.  For an empty report it
    prints the one line that says so.  The first [print] that raises ends
    the loop: the lines before it stay printed, those after it are never
    printed, and the line of the error follows them with status 1, unless
    its [print] raises too. *)
Theorem main_text_output (files : str -> option source_file)
    (recursion_limit : nat) (file_path : str) (report : list issue) :
  truthy file_path = true ->
  run_snark_linter recursion_limit (files file_path) = Returned report ->
  let result := main files recursion_limit false (Some file_path) in
  let lines := map (text_line file_path) report in
  (report = [] -> print_raises 0 no_issues_line = None ->
   result = Process [no_issues_line] Returns)
  /\ (report <> [] ->
      (forall k x, nth_error lines k = Some x -> print_raises k x = None) ->
      result = Process lines Returns)
  /\ (report <> [] ->
      forall k x e,
        nth_error lines k = Some x ->
        print_raises k x = Some e ->
        (forall j y, (j < k)%nat -> nth_error lines j = Some y ->
                     print_raises j y = None) ->
        let line := lit "Error analyzing file: " ++ library_exception_text e in
        (print_raises (S k) line = None ->
         result = Process (firstn k lines ++ [line]) (Exits 1)) /\
        (forall e', print_raises (S k) line = Some e' ->
                    result = Process (firstn k lines) (Escapes e')))
  /\ Forall2 (fun i line =>
                startswith line (file_path ++ lit ":" ++ of_Z (fst i) ++ lit ": ") = true)
       report lines
  /\ StronglySorted line_le report.
Proof.
  intros Hpath Hrun. cbv zeta. unfold main. rewrite Hpath, Hrun. cbn [negb].
  split; [| split; [| split; [| split]]].
  - intros -> Hprint. cbn [report_lines print_each]. now rewrite Hprint.
  - intros Hne Hall. destruct report as [|i0 report0]; [contradiction |].
    cbn [report_lines]. now rewrite (print_each_all _ 0 Hall).
  - intros Hne k x e Hk He Hbefore.
    destruct report as [|i0 report0]; [contradiction |].
    cbn [report_lines].
    rewrite (print_each_first _ 0 k _ _ Hk He Hbefore).
    assert (Hlen : length (firstn k (map (text_line file_path) (i0 :: report0))) = k).
    { apply firstn_length_le. apply Nat.lt_le_incl. apply nth_error_Some.
      rewrite Hk. discriminate. }
    rewrite Hlen. unfold handler. split.
    + now intros ->.
    + now intros e' ->.
  - clear Hrun. induction report as [|i l IH]; constructor; [| exact IH].
    unfold text_line. rewrite !app_assoc. apply startswith_prefix.
  - exact (run_returned_sorted _ _ _ Hrun).
Qed.

(** ** Loops across definitions *)

(** X9: the depth counter is not reset by a definition.  A counted loop
    in the body of a class or function that is itself defined in the body
    of a counted loop is reported as nested, at its own line, although no
    loop of its own function surrounds it. *)
Theorem loop_in_definition_in_loop (depth : nat)
    (c1 : loop_class) (l1 : Z) (head1 before1 after1 orelse1 : list node)
    (dc : def_class) (ld : Z) (name : str) (pre before2 after2 post : list node)
    (c2 : loop_class) (l2 : Z) (head2 body2 orelse2 : list node) :
  let inner := Loop c2 l2 head2 body2 orelse2 in
  let definition := Def dc ld name pre (before2 ++ inner :: after2) post in
  let outer := Loop c1 l1 head1 (before1 ++ definition :: after1) orelse1 in
  counted c1 = true -> counted c2 = true ->
  (height outer <= depth)%nat ->
  exists self',
    visit depth outer new_linter = Normal self' /\
    incl (nesting_issue c2 l2) (issues self') /\
    nesting_issue c2 l2 <> [].
Proof.
  intros inner definition outer Hc1 Hc2 Hh.
  destruct (visit_nesting depth outer Hh) as (self' & Hv & Hn).
  exists self'. split; [assumption |]. split; [| now destruct c2].
  intros i Hi.
  assert (Hin : In i (loops_inside outer false)).
  { unfold outer. rewrite (loops_inside_loop _ _ _ _ _ _ Hc1). cbn [app].
    apply in_flat_map. exists definition. split.
    - apply in_or_app. right. apply in_or_app. left. apply in_or_app. right. now left.
    - unfold definition. rewrite loops_inside_children.
      cbn [app is_counted_loop children]. rewrite orb_false_r.
      apply in_flat_map. exists inner. split.
      + apply in_or_app. right. apply in_or_app. left. apply in_or_app. right. now left.
      + unfold inner. rewrite (loops_inside_loop _ _ _ _ _ _ Hc2).
        apply in_or_app. now left. }
  rewrite <- Hn in Hin. now apply filter_In in Hin.
Qed.

End Engine.

(** ** Concrete runs

    The inputs below hold ASCII characters only, for which [isalpha] and
    [isupper] never consult the Unicode database: the table given for the
    other characters plays no part in these runs. *)

Definition no_table : char -> bool := fun _ => false.

Definition ast_Pass : node := Other "Pass" [].
Definition ast_Store : node := Other "Store" [].
Definition ast_Load : node := Other "Load" [].
Definition ast_Module (body : list node) : node := Other "Module" body.
Definition ast_arguments : node := Other "arguments" [].
Definition ast_Import2 : node := Other "Import" [Other "alias" []; Other "alias" []].
Definition number : node := Constant CNotStr.

(** The pattern as the specification words it: an upper-case letter, then
    letters and digits, none needed. *)
Definition SPEC_CAPWORDS_REGEX : regex :=
  Seq (Class upper_AZ) (Star (Class alnum)).

(** [for i in xs:] on line 1 with [while ok:] on line 2 inside. *)
Definition inner_loop : node :=
  Loop While 2 [Name (lit "ok") ast_Load] [ast_Pass] [].

Definition loop_in_loop : node :=
  Loop For 1 [Name (lit "i") ast_Store; Name (lit "xs") ast_Load] [inner_loop] [].

(** [for i in xs:] on line 1 with [async for j in ys: pass] on line 2
    inside. *)
Definition loop_in_async_loop : node :=
  Loop For 1 [Name (lit "i") ast_Store; Name (lit "xs") ast_Load]
    [Loop AsyncFor 2 [Name (lit "j") ast_Store; Name (lit "ys") ast_Load]
       [ast_Pass] []] [].

(** [for i in xs:] on line 1, [async for j in ys:] on line 2 inside it and
    [for k in zs: pass] on line 3 inside that. *)
Definition three_levels_with_async : node :=
  Loop For 1 [Name (lit "i") ast_Store; Name (lit "xs") ast_Load]
    [Loop AsyncFor 2 [Name (lit "j") ast_Store; Name (lit "ys") ast_Load]
       [Loop For 3 [Name (lit "k") ast_Store; Name (lit "zs") ast_Load]
          [ast_Pass] []] []] [].

(** [for i in xs:] with [pass] for its body. *)
Definition plain_loop : node :=
  Loop For 1 [Name (lit "i") ast_Store; Name (lit "xs") ast_Load] [ast_Pass] [].

(** A comment, two imports on one line, and [x = 1]. *)
Definition small_text : str :=
  lit "# c" ++ newline :: lit "import a, b" ++ newline :: lit "x = 1" ++ [newline].

Definition small_file : source_file :=
  SourceFile
    (Returned small_text)
    (Returned (ast_Module [ast_Import2; Assign 3 [Name (lit "x") ast_Store] number]))
    ([Token COMMENT 1 (lit "# c")], None).

(** A file that does not parse, the error reported on line 3. *)
Definition broken_file : source_file :=
  SourceFile
    (Returned (lit "# c" ++ newline :: lit "import a, b" ++ newline :: lit "x = (" ++ [newline]))
    (Raised (SyntaxError (Some 3)))
    ([Token COMMENT 1 (lit "# c")], Some TokenError).

(** [x = 1] followed by a NUL byte: [ast.parse] of Python 3.11 raises
    [ValueError] for a source that holds null bytes.  The run never asks
    for the tokens of this file. *)
Definition nul_byte_file : source_file :=
  SourceFile
    (Returned (lit "x = 1" ++ [0%N; newline]))
    (Raised ValueError)
    ([], Some TokenError).

(** A file whose first line names an encoding the tokenizer does not know:
    [ast.parse], given the decoded text, ignores the line, and
    [tokenize.tokenize] raises [SyntaxError] before it yields a token. *)
Definition unknown_encoding_file : source_file :=
  SourceFile
    (Returned (lit "# coding: nonsense" ++ newline :: lit "import a, b" ++ [newline]))
    (Returned (ast_Module [ast_Import2]))
    ([], Some (SyntaxError None)).

(** One comment line of 73 characters. *)
Definition long_comment : str := lit "#" ++ repeat (chr "a") 72.

Definition long_comment_file : source_file :=
  SourceFile
    (Returned (long_comment ++ [newline]))
    (Returned (ast_Module []))
    ([Token COMMENT 1 long_comment], None).

(** [class myClass: pass] on line 1 and [class MyClass123: pass] on line 3. *)
Definition two_classes : node :=
  ast_Module [Def ClassDef 1 (lit "myClass") [] [ast_Pass] [];
              Def ClassDef 3 (lit "MyClass123") [] [ast_Pass] []].

(** [class A: pass] *)
Definition one_letter_class : node :=
  ast_Module [Def ClassDef 1 (lit "A") [] [ast_Pass] []].

(** [def f():] on line 1 with [def g(): pass] on line 2 inside. *)
Definition nested_functions : node :=
  ast_Module [Def FunctionDef 1 (lit "f") [ast_arguments]
                [Def FunctionDef 2 (lit "g") [ast_arguments] [ast_Pass] []] []].

(** [x = 5], [xy = 5], [a.b = 5] and [x += 1], on lines 1 to 4. *)
Definition assignments : node :=
  ast_Module [Assign 1 [Name (lit "x") ast_Store] number;
              Assign 2 [Name (lit "xy") ast_Store] number;
              Assign 3 [Other "Attribute" [Name (lit "a") ast_Load; ast_Store]] number;
              Other "AugAssign" [Name (lit "x") ast_Store; Other "Add" []; number]].

(** [x = y = 5] on line 1. *)
Definition chained_assignment : node :=
  ast_Module [Assign 1 [Name (lit "x") ast_Store; Name (lit "y") ast_Store] number].

(** A class whose docstring is opened on line 2 and closed on line 3, with
    nothing but the indentation between: the literal is a line feed and
    four spaces. *)
Definition blank_lines_docstring : node :=
  ast_Module [Def ClassDef 1 (lit "Ab") []
                [Expr (Constant (CStr (newline :: lit "    ")))] []].

(** [async def f():] with an empty docstring. *)
Definition async_function : node :=
  ast_Module [Def AsyncFunctionDef 1 (lit "f") [ast_arguments]
                [Expr (Constant (CStr []))] []].

Lemma report_sorted_and_stable_witness :
  text small_file = Returned small_text /\
  (exists report,
      run_snark_linter no_table no_table 10 (Some small_file) = Returned report /\
      StronglySorted line_le report /\
      forall n,
        filter (on_line n) report
        = filter (on_line n)
            ([(3, SingleLetterVariable (lit "x") 3)]
             ++ [(1, ExtraneousComment 1 (lit "# c"))] ++ [] ++ [(2, MultipleImports 2)])).
Proof.
  split; [reflexivity |].
  destruct (report_sorted_and_stable no_table no_table 10 small_file _ _ eq_refl eq_refl)
    as [Hsorted Hreturns].
  destruct Hreturns as [report Hrun]; [apply Nat.leb_le; reflexivity | reflexivity |].
  exists report. split; [exact Hrun |].
  destruct (Hsorted report Hrun)
    as (self' & comments & lengths & imports & Hv & Hc & Hl & Hi & Hs & _ & Hstable).
  split; [exact Hs |].
  injection Hv as <-. injection Hc as <-. injection Hl as <-. injection Hi as <-.
  exact Hstable.
Defined.

Lemma syntax_error_single_issue_witness :
  (source_code <- text broken_file ;;; ast_parse broken_file) = Raised (SyntaxError (Some 3)) /\
  run_snark_linter no_table no_table 10 (Some broken_file) = Returned [(3, SyntaxErrorAt 3)].
Proof.
  split; [reflexivity |].
  destruct (proj1 (syntax_error_single_issue no_table no_table 10 broken_file
                     (SyntaxError (Some 3)) eq_refl) (Some 3) eq_refl)
    as (line_number & Hrun & Hline & _).
  rewrite (Hline 3 eq_refl) in Hrun by discriminate. exact Hrun.
Defined.

(** Counterexample to C2: a text with a NUL byte does not parse, and the
    parser says so with [ValueError]; the engine returns no issue, the
    exception leaves it. *)
Lemma parse_failure_not_recovered :
  (source_code <- text nul_byte_file ;;; ast_parse nul_byte_file) = Raised ValueError /\
  run_snark_linter no_table no_table 10 (Some nul_byte_file) = Raised ValueError /\
  forall report,
    run_snark_linter no_table no_table 10 (Some nul_byte_file) <> Returned report.
Proof. repeat split; try reflexivity. intros report. discriminate. Qed.

Lemma loop_depth_settled_witness :
  counted For = true /\
  exists self',
    visit no_table no_table 10 loop_in_loop new_linter = Normal self' /\
    loop_depth self' = loop_depth new_linter.
Proof.
  split; [reflexivity |]. eexists. split; [reflexivity |].
  apply (proj1 (proj2 (loop_depth_settled no_table no_table 9 For 1
                         [Name (lit "i") ast_Store; Name (lit "xs") ast_Load]
                         [inner_loop] [] new_linter eq_refl)) 10%nat).
  reflexivity.
Defined.

(** Counterexample to C3: with the stack that is left allowing one more
    call of [visit] only, the visit of the loop enters it, raises in the
    descent, and leaves the counter at 1. *)
Lemma loop_depth_left_raised :
  visit no_table no_table 1 plain_loop new_linter = Raise RecursionError (Linter [] 1)
  /\ loop_depth (Linter [] 1) <> loop_depth new_linter.
Proof. split; [reflexivity | discriminate]. Qed.

Lemma nesting_rule_witness :
  counted For = true /\ counted While = true /\
  loop_free [Name (lit "i") ast_Store; Name (lit "xs") ast_Load] /\
  only_loop inner_loop [inner_loop] /\
  loop_free [] /\
  loop_free ([Name (lit "ok") ast_Load] ++ [ast_Pass] ++ []) /\
  (height loop_in_loop <= 10)%nat /\
  exists self',
    visit no_table no_table 10 loop_in_loop new_linter = Normal self' /\
    filter is_nesting (issues self') = [(2, NestedWhile 2)].
Proof.
  assert (Honly : only_loop inner_loop [inner_loop])
    by (exists [], []; repeat split).
  repeat (split; [reflexivity || exact Honly || (apply Nat.leb_le; reflexivity) |]).
  destruct (nesting_rule no_table no_table) as (_ & _ & _ & Hnested & _).
  destruct (Hnested 10%nat For 1 [Name (lit "i") ast_Store; Name (lit "xs") ast_Load]
              [inner_loop] [] While 2 [Name (lit "ok") ast_Load] [ast_Pass] [])
    as (self' & Hv & Hn & _);
    try reflexivity; try exact Honly.
  - apply Nat.leb_le. reflexivity.
  - exists self'. split; [exact Hv | exact Hn].
Defined.

(** Counterexample to C4: [async for] on line 2, inside [for] on line 1
    and around [for] on line 3.  The loop on line 2 is nested and gets no
    issue; the three loops are three levels deep and get one nesting issue
    between them, the one of line 3, not two. *)
Lemma async_for_not_counted :
  visit no_table no_table 10 loop_in_async_loop new_linter = Normal (Linter [] 0) /\
  visit no_table no_table 10 three_levels_with_async new_linter
  = Normal (Linter [(3, NestedFor 3)] 0).
Proof. split; reflexivity. Qed.

Lemma class_naming_rule_witness :
  (height two_classes <= 5)%nat /\
  exists self',
    visit no_table no_table 5 two_classes new_linter = Normal self' /\
    filter is_class_naming (issues self') = [(1, ClassNotCapWords (lit "myClass") 1)].
Proof.
  split; [apply Nat.leb_le; reflexivity |].
  destruct (proj2 (proj2 (class_naming_rule no_table no_table)) 5%nat two_classes)
    as (self' & Hv & Hf).
  - apply Nat.leb_le. reflexivity.
  - exists self'. split; [exact Hv | exact Hf].
Defined.

(** Counterexample to C5: the one-letter name [A] matches the pattern of
    the specification, and the visit reports the class all the same. *)
Lemma one_letter_class_reported :
  re_match SPEC_CAPWORDS_REGEX (lit "A") = true /\
  re_match CAPWORDS_REGEX (lit "A") = false /\
  visit no_table no_table 5 one_letter_class new_linter
  = Normal (Linter [(1, ClassNotCapWords (lit "A") 1);
                    (1, ClassNoDocstring (lit "A") 1)] 0).
Proof. repeat split; reflexivity. Qed.

Lemma tokenizer_failure_aborts_witness :
  snd (tokens unknown_encoding_file) = Some (SyntaxError None) /\
  find_comment_issues (Some unknown_encoding_file) = Raised (SyntaxError None) /\
  run_snark_linter no_table no_table 10 (Some unknown_encoding_file)
  = Raised (SyntaxError None).
Proof.
  split; [reflexivity |].
  destruct (tokenizer_failure_aborts no_table no_table 10 unknown_encoding_file _ _
              (SyntaxError None) eq_refl eq_refl eq_refl) as (Hc & _ & Hrun & _).
  split; [exact Hc |]. apply Hrun. apply Nat.leb_le. reflexivity.
Defined.

(** Counterexample to C6: the file parses, the tokenizer fails on it, and
    the engine raises the tokenizer's exception: the comment scan does not
    return, and the issue the import scan finds on line 2 is lost with the
    rest of the report. *)
Lemma tokenizer_failure_loses_report :
  (source_code <- text unknown_encoding_file ;;; ast_parse unknown_encoding_file)
  = Returned (ast_Module [ast_Import2]) /\
  find_comment_issues (Some unknown_encoding_file) = Raised (SyntaxError None) /\
  find_import_issues (Some unknown_encoding_file) = Returned [(2, MultipleImports 2)] /\
  run_snark_linter no_table no_table 10 (Some unknown_encoding_file)
  = Raised (SyntaxError None).
Proof. repeat split; reflexivity. Qed.

Lemma function_found_rule_witness :
  (height nested_functions <= 5)%nat /\
  exists self',
    visit no_table no_table 5 nested_functions new_linter = Normal self' /\
    filter is_function_found (issues self')
    = [(1, FunctionFound (lit "f") 1); (2, FunctionFound (lit "g") 2)].
Proof.
  split; [apply Nat.leb_le; reflexivity |].
  destruct (function_found_rule no_table no_table 5%nat nested_functions)
    as (self' & Hv & Hf).
  - apply Nat.leb_le. reflexivity.
  - exists self'. split; [exact Hv | exact Hf].
Defined.

(** Counterexample to C7: a routine defined with [async def] is visited
    and no issue at all is appended for it. *)
Lemma async_function_not_reported :
  visit no_table no_table 5 async_function new_linter = Normal (Linter [] 0).
Proof. reflexivity. Qed.

Lemma line_length_rule_witness :
  nth_error (file_lines (long_comment ++ [newline])) 0 = Some (long_comment ++ [newline]) /\
  len (rstrip_newline (long_comment ++ [newline])) = 73 /\
  exists length_issues,
    find_line_length_issues (Some long_comment_file) = Returned length_issues /\
    filter (on_line 1) length_issues = [(1, CommentLineTooLong 1 73)].
Proof.
  split; [reflexivity |]. split; [reflexivity |].
  destruct (line_length_rule long_comment_file _ 0%nat _ eq_refl eq_refl eq_refl)
    as (length_issues & Hrun & Hline & _).
  exists length_issues. split; [exact Hrun | exact Hline].
Defined.

Lemma single_letter_rule_witness :
  (height assignments <= 5)%nat /\
  exists self',
    visit no_table no_table 5 assignments new_linter = Normal self' /\
    filter is_single_letter (issues self') = [(1, SingleLetterVariable (lit "x") 1)].
Proof.
  split; [apply Nat.leb_le; reflexivity |].
  destruct (proj1 (single_letter_rule no_table no_table) 5%nat assignments)
    as (self' & Hv & Hf).
  - apply Nat.leb_le. reflexivity.
  - exists self'. split; [exact Hv | exact Hf].
Defined.

(** Counterexample to C9: [x = y = 5] gives two single-letter issues, one
    for each target. *)
Lemma chained_assignment_reported :
  visit no_table no_table 5 chained_assignment new_linter
  = Normal (Linter [(1, SingleLetterVariable (lit "x") 1);
                    (1, SingleLetterVariable (lit "y") 1)] 0).
Proof. reflexivity. Qed.

Lemma blank_docstring_rule_witness :
  blank_first_line (lit "   ") = true /\
  get_docstring [Expr (Constant (CStr (lit "   ")))] = Some [] /\
  exists appended,
    visit no_table no_table 5
      (Def FunctionDef 1 (lit "f") [ast_arguments]
         [Expr (Constant (CStr (lit "   ")))] []) new_linter
    = generic_visit no_table no_table 4
        (Def FunctionDef 1 (lit "f") [ast_arguments]
           [Expr (Constant (CStr (lit "   ")))] [])
        (Linter (issues new_linter ++ appended) (loop_depth new_linter)) /\
    filter is_missing_docstring appended = [(1, FunctionNoDocstring (lit "f") 1)] /\
    filter is_docstring_shape appended = [].
Proof.
  split; [reflexivity |].
  destruct (blank_docstring_rule no_table no_table 4%nat 1 (lit "f") [ast_arguments]
              [] [] (lit "   ") new_linter) as (Hdoc & Hfires & _ & _).
  split; [now apply Hdoc |].
  exact (proj2 (Hfires eq_refl)).
Defined.

(** Counterexamples to C10: a docstring that holds a line feed and the
    indentation of its closing quotes is whitespace only, the accessor
    returns its four spaces, and the visit appends the three shape issues
    and no missing-docstring issue; and for an [async def] with an empty
    docstring the visit appends nothing. *)
Lemma blank_lines_docstring_checked :
  forallb isspace (newline :: lit "    ") = true /\
  get_docstring [Expr (Constant (CStr (newline :: lit "    ")))] = Some (lit "    ") /\
  visit no_table no_table 5 blank_lines_docstring new_linter
  = Normal (Linter [(1, DocstringTooShort (EClass (lit "Ab")) 1 4);
                    (1, DocstringNoCapital (EClass (lit "Ab")) 1);
                    (1, DocstringNoPunctuation (EClass (lit "Ab")) 1)] 0) /\
  visit no_table no_table 5 async_function new_linter = Normal (Linter [] 0).
Proof. repeat split; reflexivity. Qed.

(** ** Further runs *)

(** The runs of [main] below are without [--json] or print no report, and
    raise no exception of the library: the two texts left open play no
    part in them. *)
Definition no_dumps : list (Z * str) -> str := fun _ => [].
Definition no_text : exn -> str := fun _ => [].


(** A standard output encoded in ASCII: [print] raises
    [UnicodeEncodeError] for a text with a character beyond it. *)
Definition ascii_stdout : nat -> str -> option exn :=
  fun _ x =>
    if forallb (fun c => (c <? 128)%N) x then None else Some UnicodeEncodeError.

(** [x = 1] with a comment, whose last letter is an e with an acute
    accent. *)
Definition accent_file : source_file :=
  SourceFile
    (Returned (lit "x = 1  # caf" ++ [233%N; newline]))
    (Returned (ast_Module [Assign 1 [Name (lit "x") ast_Store] number]))
    ([Token OTHER_TOKEN 1 (lit "x"); Token OTHER_TOKEN 1 (lit "=");
      Token OTHER_TOKEN 1 (lit "1"); Token COMMENT 1 (lit "# caf" ++ [233%N])],
     None).

(** [def myFunc(): pass] on line 1 and [def ok_name(): pass] on line 3. *)
Definition two_functions : node :=
  ast_Module [Def FunctionDef 1 (lit "myFunc") [ast_arguments] [ast_Pass] [];
              Def FunctionDef 3 (lit "ok_name") [ast_arguments] [ast_Pass] []].

(** [def f():] with the docstring [hi]. *)
Definition short_docstring : node :=
  Def FunctionDef 1 (lit "f") [ast_arguments] [Expr (Constant (CStr (lit "hi")))] [].

(** [for i in xs:] on line 1, [def f():] on line 2 in its body and
    [while ok: pass] on line 3 in the body of [f]. *)
Definition loop_in_function_in_loop : node :=
  Loop For 1 [Name (lit "i") ast_Store; Name (lit "xs") ast_Load]
    ([] ++ Def FunctionDef 2 (lit "f") [ast_arguments]
             ([] ++ Loop While 3 [Name (lit "ok") ast_Load] [ast_Pass] [] :: []) []
        :: []) [].

Lemma function_naming_rule_witness :
  (height two_functions <= 5)%nat /\
  exists self',
    visit no_table no_table 5 two_functions new_linter = Normal self' /\
    filter is_function_naming (issues self')
    = [(1, FunctionNotSnakeCase (lit "myFunc") 1)].
Proof.
  split; [apply Nat.leb_le; reflexivity |].
  destruct (proj2 (function_naming_rule no_table no_table) 5%nat two_functions)
    as (self' & Hv & Hf).
  - apply Nat.leb_le. reflexivity.
  - exists self'. split; [exact Hv | exact Hf].
Defined.

Lemma docstring_shape_rule_witness :
  cleandoc (lit "hi") = lit "hi" /\
  exists appended,
    visit no_table no_table 5 short_docstring new_linter
    = generic_visit no_table no_table 4 short_docstring
        (Linter (issues new_linter ++ appended) (loop_depth new_linter)) /\
    filter (fun i => is_missing_docstring i || is_docstring_shape i) appended
    = [(1, DocstringTooShort (EFunction (lit "f")) 1 2);
       (1, DocstringNoCapital (EFunction (lit "f")) 1);
       (1, DocstringNoPunctuation (EFunction (lit "f")) 1)].
Proof.
  split; [reflexivity |].
  exact (proj2 (docstring_shape_rule no_table no_table 4%nat 1 (lit "f")
                  [ast_arguments] [] [] (lit "hi") (chr "h") (lit "i") new_linter
                  eq_refl)).
Defined.

Lemma visit_raises_no_index_error_witness :
  visit no_table no_table 1 plain_loop new_linter = Raise RecursionError (Linter [] 1) /\
  RecursionError <> IndexError.
Proof.
  split; [reflexivity |].
  exact (proj2 (visit_raises_no_index_error no_table no_table) 1%nat plain_loop
           new_linter RecursionError (Linter [] 1) eq_refl).
Defined.

Lemma report_lines_agree_witness :
  exists report,
    run_snark_linter no_table no_table 10 (Some small_file) = Returned report /\
    Forall (fun i => message_line (snd i) = fst i) report.
Proof.
  eexists. split; [reflexivity |].
  apply (report_lines_agree no_table no_table 10 (Some small_file)). reflexivity.
Defined.

Lemma line_scans_within_file_witness :
  text small_file = Returned small_text /\
  exists length_issues import_issues,
    find_line_length_issues (Some small_file) = Returned length_issues /\
    find_import_issues (Some small_file) = Returned import_issues /\
    forall i, In i (length_issues ++ import_issues) -> 1 <= fst i <= 3.
Proof.
  split; [reflexivity |].
  destruct (line_scans_within_file small_file small_text eq_refl)
    as (length_issues & import_issues & Hl & Hi & Hin & _).
  exists length_issues, import_issues. split; [exact Hl |]. split; [exact Hi | exact Hin].
Defined.

Lemma import_rule_witness :
  nth_error (file_lines small_text) 1 = Some (lit "import a, b" ++ [newline]) /\
  strip (lit "import a, b" ++ [newline]) = lit "import " ++ lit "a, b" /\
  exists import_issues,
    find_import_issues (Some small_file) = Returned import_issues /\
    filter (on_line 2) import_issues = [(2, MultipleImports 2)].
Proof.
  split; [reflexivity |]. split; [reflexivity |].
  destruct (import_rule small_file small_text 1%nat (lit "import a, b" ++ [newline])
              eq_refl eq_refl) as (import_issues & Hrun & Himport & _).
  exists import_issues. split; [exact Hrun |].
  exact (Himport (lit "a, b") eq_refl).
Defined.

Lemma comment_scan_rule_witness :
  snd (tokens small_file) = None /\
  exists comment_issues,
    find_comment_issues (Some small_file) = Returned comment_issues /\
    length comment_issues = 1%nat.
Proof.
  split; [reflexivity |].
  destruct (comment_scan_rule small_file eq_refl) as (comment_issues & Hrun & _ & Hlen).
  exists comment_issues. split; [exact Hrun | exact Hlen].
Defined.

Lemma loop_in_definition_in_loop_witness :
  counted For = true /\ counted While = true /\
  (height loop_in_function_in_loop <= 10)%nat /\
  exists self',
    visit no_table no_table 10 loop_in_function_in_loop new_linter = Normal self' /\
    In (3, NestedWhile 3) (issues self').
Proof.
  assert (H : (height loop_in_function_in_loop <= 10)%nat)
    by (apply Nat.leb_le; reflexivity).
  repeat (split; [reflexivity || exact H |]).
  destruct (loop_in_definition_in_loop no_table no_table 10%nat
              For 1 [Name (lit "i") ast_Store; Name (lit "xs") ast_Load] [] [] []
              FunctionDef 2 (lit "f") [ast_arguments] [] [] []
              While 3 [Name (lit "ok") ast_Load] [ast_Pass] [] eq_refl eq_refl H)
    as (self' & Hv & Hincl & _).
  exists self'. split; [exact Hv |]. apply Hincl. now left.
Defined.

Lemma tree_issues_on_node_lines_witness :
  exists self',
    visit no_table no_table 10 assignments new_linter = Normal self' /\
    forall i, In i (issues self') ->
              exists m, In m (subnodes assignments) /\ node_line m = Some (fst i).
Proof.
  eexists. split; [reflexivity |].
  apply (tree_issues_on_node_lines no_table no_table 10 assignments). reflexivity.
Defined.


Lemma main_text_output_witness :
  truthy (lit "a.py") = true /\
  run_snark_linter no_table no_table 10 (Some accent_file)
  = Returned [(1, SingleLetterVariable (lit "x") 1);
              (1, ExtraneousComment 1 (lit "# caf" ++ [233%N]))] /\
  main no_table no_table no_dumps no_text ascii_stdout (fun _ => Some accent_file)
    10 false (Some (lit "a.py"))
  = Process [text_line (lit "a.py") (1, SingleLetterVariable (lit "x") 1);
             lit "Error analyzing file: "] (Exits 1).
Proof.
  split; [reflexivity |]. split; [reflexivity |].
  destruct (main_text_output no_table no_table no_dumps no_text ascii_stdout
              (fun _ => Some accent_file) 10 (lit "a.py") _ eq_refl eq_refl)
    as (_ & _ & Hraised & _).
  refine (proj1 (Hraised _ 1%nat _ UnicodeEncodeError eq_refl eq_refl _) eq_refl).
  - discriminate.
  - intros [|j] y Hj Hy; [| lia]. injection Hy as <-. reflexivity.
Defined.
